(** * Registration of global memory roots (runtime/globroots.c)

    A shallow embedding of the generational global-root registry of the
    OCaml 5 runtime: three skip lists keyed by root address, the roots
    mutex, the thread-local [iterating_roots] counter, the insertion,
    deletion and modification operations, and the two scan drivers. *)

From Stdlib Require Import ZArith Lia.
From stdpp Require Import base gmap sets list sorting.

Open Scope Z_scope.

(** ** Values and their classification *)

(** Tag values of the skip-list entries. *)
Definition ROOT_PRESENT : Z := 0.
Definition ROOT_DELETED : Z := 1.

(** [Is_block v]: the low bit of a block value is clear. *)
Definition Is_block (v : Z) : bool := Z.eqb (Z.land v 1) 0.

(** [Is_young v]: strictly inside the minor heaps area
    [caml_minor_heaps_start, caml_minor_heaps_end]. *)
Definition Is_young (minor_start minor_end v : Z) : bool :=
  (v <? minor_end) && (minor_start <? v).

Inductive gc_root_class := YOUNG | OLD | UNTRACKED.

Global Instance gc_root_class_eq_dec : EqDecision gc_root_class.
Proof. solve_decision. Defined.

(** ** Runtime state *)

(** The three skip lists, the roots mutex, the counter [iterating_roots]
    of the (single) thread modelled, the contents of memory, the minor
    heap bounds used by [Is_young], the statically linked and the
    natdynlink'd globals (each global given by the addresses of its
    fields), and [trace], the root addresses passed to the scanning
    action, in call order. *)
Record state := mkState {
  mem : Z -> Z;
  caml_global_roots : gmap Z Z;
  caml_global_roots_young : gmap Z Z;
  caml_global_roots_old : gmap Z Z;
  roots_mutex_locked : bool;
  iterating_roots : nat;
  caml_minor_heaps_start : Z;
  caml_minor_heaps_end : Z;
  caml_globals : list (list Z);
  caml_dyn_globals : list (list Z);
  trace : list Z
}.

Inductive rootlist := Global_roots | Young_roots | Old_roots.

Definition get_list (l : rootlist) (s : state) : gmap Z Z :=
  match l with
  | Global_roots => caml_global_roots s
  | Young_roots => caml_global_roots_young s
  | Old_roots => caml_global_roots_old s
  end.

Definition set_list (l : rootlist) (m : gmap Z Z) (s : state) : state :=
  match s with
  | mkState me g y o lk it lo hi gl dg tr =>
    match l with
    | Global_roots => mkState me m y o lk it lo hi gl dg tr
    | Young_roots => mkState me g m o lk it lo hi gl dg tr
    | Old_roots => mkState me g y m lk it lo hi gl dg tr
    end
  end.

Definition set_mutex (b : bool) (s : state) : state :=
  match s with
  | mkState me g y o _ it lo hi gl dg tr => mkState me g y o b it lo hi gl dg tr
  end.

Definition set_iterating (n : nat) (s : state) : state :=
  match s with
  | mkState me g y o lk _ lo hi gl dg tr => mkState me g y o lk n lo hi gl dg tr
  end.

Definition set_dyn_globals (d : list (list Z)) (s : state) : state :=
  match s with
  | mkState me g y o lk it lo hi gl _ tr => mkState me g y o lk it lo hi gl d tr
  end.

(** [*r = v] *)
Definition store (r v : Z) (s : state) : state :=
  match s with
  | mkState me g y o lk it lo hi gl dg tr =>
    mkState (fun a => if Z.eqb a r then v else me a) g y o lk it lo hi gl dg tr
  end.

(** Record one call of the scanning action on root address [r]. *)
Definition log_call (r : Z) (s : state) : state :=
  match s with
  | mkState me g y o lk it lo hi gl dg tr =>
    mkState me g y o lk it lo hi gl dg (tr ++ [r])
  end.

(** [caml_plat_lock_blocking]: the mutex is not recursive; when it is
    already held the calling thread blocks forever, modelled by [None]. *)
Definition lock_blocking (s : state) : option state :=
  if roots_mutex_locked s then None else Some (set_mutex true s).

Definition unlock (s : state) : state := set_mutex false s.

(** ** The ordered root map (runtime/skiplist.c) *)

(** Modelled from the spec: the skip list of runtime/skiplist.c is used
    only through its map contract (keyed insert, keyed remove, keyed
    find of the data slot, empty, ordered iteration); it is a finite map
    from keys to data, iterated in increasing key order. *)
Definition skiplist_keys (m : gmap Z Z) : list Z :=
  merge_sort Z.leb (elements (dom m)).

(** Modelled from the spec: [caml_skiplist_insert] is a keyed insert. *)
Definition skiplist_insert (k d : Z) (m : gmap Z Z) : gmap Z Z := <[k := d]> m.

(** Modelled from the spec: [caml_skiplist_remove] is a keyed remove. *)
Definition skiplist_remove (k : Z) (m : gmap Z Z) : gmap Z Z := delete k m.

(** ** Insertion and deletion *)

Definition caml_insert_global_root (l : rootlist) (r : Z) (s : state)
  : option state :=
  s1 ← lock_blocking s;
  let s2 := set_list l (skiplist_insert r ROOT_PRESENT (get_list l s1)) s1 in
  Some (unlock s2).

Definition caml_delete_global_root (l : rootlist) (r : Z) (s : state)
  : option state :=
  if Nat.ltb 0 (iterating_roots s) then
    (* we hold the roots_mutex because we are iterating *)
    match get_list l s !! r with
    | Some _ => Some (set_list l (<[r := ROOT_DELETED]> (get_list l s)) s)
    | None => Some s
    end
  else
    s1 ← lock_blocking s;
    let s2 := set_list l (skiplist_remove r (get_list l s1)) s1 in
    Some (unlock s2).

(** The alignment assertion of the registration functions is a debug
    check ([CAMLassert]) and is not modelled. *)
Definition caml_register_global_root (r : Z) (s : state) : option state :=
  caml_insert_global_root Global_roots r s.

Definition caml_remove_global_root (r : Z) (s : state) : option state :=
  caml_delete_global_root Global_roots r s.

Definition classify_gc_root (s : state) (v : Z) : gc_root_class :=
  if negb (Is_block v) then UNTRACKED
  else if Is_young (caml_minor_heaps_start s) (caml_minor_heaps_end s) v
  then YOUNG else OLD.

Definition caml_register_generational_global_root (r : Z) (s : state)
  : option state :=
  match classify_gc_root s (mem s r) with
  | YOUNG => caml_insert_global_root Young_roots r s
  | OLD => caml_insert_global_root Old_roots r s
  | UNTRACKED => Some s
  end.

Definition caml_remove_generational_global_root (r : Z) (s : state)
  : option state :=
  match classify_gc_root s (mem s r) with
  | OLD =>
    s1 ← caml_delete_global_root Old_roots r s;
    (* fallthrough *)
    caml_delete_global_root Young_roots r s1
  | YOUNG => caml_delete_global_root Young_roots r s
  | UNTRACKED => Some s
  end.

Definition caml_modify_generational_global_root (r newval : Z) (s : state)
  : option state :=
  s1 ←
    match classify_gc_root s newval with
    | YOUNG =>
      let c := classify_gc_root s (mem s r) in
      s' ← (if decide (c = OLD)
            then caml_delete_global_root Old_roots r s else Some s);
      if decide (c ≠ YOUNG)
      then caml_insert_global_root Young_roots r s' else Some s'
    | OLD =>
      if decide (classify_gc_root s (mem s r) = UNTRACKED)
      then caml_insert_global_root Old_roots r s else Some s
    | UNTRACKED => caml_remove_generational_global_root r s
    end;
  Some (store r newval s1).

(** ** Scanning actions

    The scanning action [f(fdata, *r, r)] is C code of the caller. It is
    modelled by the list of effects it performs on this module's state:
    writes to memory (relocation of the root, or any other write) and
    calls of the registration functions. *)
Inductive action :=
| Act_write (a v : Z)
| Act_register_global_root (r : Z)
| Act_remove_global_root (r : Z)
| Act_register_generational (r : Z)
| Act_remove_generational (r : Z)
| Act_modify_generational (r v : Z).

Definition scanning_action := Z -> Z -> list action.

Definition exec_action (a : action) (s : state) : option state :=
  match a with
  | Act_write p v => Some (store p v s)
  | Act_register_global_root r => caml_register_global_root r s
  | Act_remove_global_root r => caml_remove_global_root r s
  | Act_register_generational r => caml_register_generational_global_root r s
  | Act_remove_generational r => caml_remove_generational_global_root r s
  | Act_modify_generational r v => caml_modify_generational_global_root r v s
  end.

Fixpoint exec_actions (l : list action) (s : state) : option state :=
  match l with
  | [] => Some s
  | a :: l' => s1 ← exec_action a s; exec_actions l' s1
  end.

(** [f(fdata, *r, r)] *)
Definition call_action (f : scanning_action) (r : Z) (s : state)
  : option state :=
  exec_actions (f (mem s r) r) (log_call r s).

(** The body of [FOREACH_SKIPLIST_ELEMENT] in [caml_iterate_global_roots],
    over the keys of the list at the start of the walk: the walk reads
    the successor before running the body, the only structural change
    during the walk is the removal of the current element (insertion
    needs the mutex, held by the iterating thread), so this is the
    element sequence the walk visits. *)
Fixpoint iterate_keys (f : scanning_action) (l : rootlist) (ks : list Z)
  (s : state) : option state :=
  match ks with
  | [] => Some s
  | k :: ks' =>
    s1 ← match get_list l s !! k with
         | Some d =>
           if Z.eqb d ROOT_DELETED
           then Some (set_list l (skiplist_remove k (get_list l s)) s)
           else call_action f k s
         | None => Some s
         end;
    iterate_keys f l ks' s1
  end.

Definition caml_iterate_global_roots (f : scanning_action) (l : rootlist)
  (s : state) : option state :=
  iterate_keys f l (skiplist_keys (get_list l s)) s.

(** Scanning of the fields of the statically linked and natdynlink'd
    globals (native-code runtime). *)
Fixpoint scan_slots (f : scanning_action) (slots : list Z) (s : state)
  : option state :=
  match slots with
  | [] => Some s
  | a :: slots' => s1 ← call_action f a s; scan_slots f slots' s1
  end.

Definition scan_native_globals (f : scanning_action) (s : state)
  : option state :=
  s1 ← lock_blocking s;
  let dyn_globals := caml_dyn_globals s1 in
  let s2 := unlock s1 in
  s3 ← scan_slots f (concat (caml_globals s2)) s2;
  scan_slots f (concat dyn_globals) s3.

Definition caml_register_dyn_globals (globals : list (list Z)) (s : state)
  : option state :=
  s1 ← lock_blocking s;
  let s2 := set_dyn_globals
              (fold_left (fun acc g => g :: acc) globals (caml_dyn_globals s1)) s1 in
  Some (unlock s2).

Definition caml_scan_global_roots (f : scanning_action) (s : state)
  : option state :=
  s1 ← lock_blocking s;
  let s2 := set_iterating (S (iterating_roots s1)) s1 in
  s3 ← caml_iterate_global_roots f Global_roots s2;
  s4 ← caml_iterate_global_roots f Young_roots s3;
  s5 ← caml_iterate_global_roots f Old_roots s4;
  let s6 := set_iterating (Nat.pred (iterating_roots s5)) s5 in
  let s7 := unlock s6 in
  scan_native_globals f s7.

(** Move young roots to old roots. *)
Definition promote_young (young old : gmap Z Z) : gmap Z Z :=
  fold_left (fun o k => skiplist_insert k 0 o) (skiplist_keys young) old.

Definition caml_scan_global_young_roots (f : scanning_action) (s : state)
  : option state :=
  s1 ← lock_blocking s;
  let s2 := set_iterating (S (iterating_roots s1)) s1 in
  s3 ← caml_iterate_global_roots f Global_roots s2;
  s4 ← caml_iterate_global_roots f Young_roots s3;
  let s5 := set_list Old_roots
              (promote_young (caml_global_roots_young s4)
                             (caml_global_roots_old s4)) s4 in
  let s6 := set_list Young_roots ∅ s5 in
  let s7 := set_iterating (Nat.pred (iterating_roots s6)) s6 in
  Some (unlock s7).

(** ** Calls from the rest of the runtime and reachable states *)

Inductive api_call :=
| Call_register_global_root (r : Z)
| Call_remove_global_root (r : Z)
| Call_register_generational (r : Z)
| Call_remove_generational (r : Z)
| Call_modify_generational (r v : Z)
| Call_register_dyn_globals (g : list (list Z))
| Call_scan_global_roots (f : scanning_action)
| Call_scan_global_young_roots (f : scanning_action).

Definition run_call (c : api_call) (s : state) : option state :=
  match c with
  | Call_register_global_root r => caml_register_global_root r s
  | Call_remove_global_root r => caml_remove_global_root r s
  | Call_register_generational r => caml_register_generational_global_root r s
  | Call_remove_generational r => caml_remove_generational_global_root r s
  | Call_modify_generational r v => caml_modify_generational_global_root r v s
  | Call_register_dyn_globals g => caml_register_dyn_globals g s
  | Call_scan_global_roots f => caml_scan_global_roots f s
  | Call_scan_global_young_roots f => caml_scan_global_young_roots f s
  end.

(** Initial state: empty root lists, mutex free, no iteration. *)
Definition init_state (m : Z -> Z) (lo hi : Z) (globals : list (list Z))
  : state :=
  mkState m ∅ ∅ ∅ false 0 lo hi globals [] [].

(** A scanning action that, when it writes memory, writes a heap
    reference (relocation of a root to the new address of its block). *)
Definition action_writes_blocks (a : action) : Prop :=
  match a with
  | Act_write _ v => Is_block v = true
  | _ => True
  end.

Definition scan_writes_blocks (f : scanning_action) : Prop :=
  forall v r, Forall action_writes_blocks (f v r).

Definition call_writes_blocks (c : api_call) : Prop :=
  match c with
  | Call_scan_global_roots f | Call_scan_global_young_roots f =>
    scan_writes_blocks f
  | _ => True
  end.

(** States reached from the initial state by calls completed one after
    the other (the mutex linearizes them), memory written between calls
    only through [caml_modify_generational_global_root] and the scanning
    actions. *)
Inductive reachable : state -> Prop :=
| reachable_init m lo hi gl : reachable (init_state m lo hi gl)
| reachable_step s c s' :
    reachable s -> call_writes_blocks c -> run_call c s = Some s' ->
    reachable s'.

(** States reached from the initial state by calls completed one after
    the other, with scanning actions that may do anything the action
    language allows (write any value, register or remove roots). *)
Inductive reachable_any : state -> Prop :=
| reachable_any_init m lo hi gl : reachable_any (init_state m lo hi gl)
| reachable_any_step s c s' :
    reachable_any s -> run_call c s = Some s' -> reachable_any s'.

(** A root is registered in a list when its entry is present (not a
    tombstone). *)
Definition registered (m : gmap Z Z) (r : Z) : Prop := m !! r = Some ROOT_PRESENT.

Definition live_count (m : gmap Z Z) : nat :=
  size (filter (fun kv : Z * Z => kv.2 = ROOT_PRESENT) m).

(** ** Small tests *)

Definition s_test : state :=
  init_state (fun a => if Z.eqb a 8 then 4104 else if Z.eqb a 16 then 196608 else 1)
             4096 8192 [[24]].

Fixpoint run_calls (cs : list api_call) (s : state) : option state :=
  match cs with
  | [] => Some s
  | c :: cs' => s1 ← run_call c s; run_calls cs' s1
  end.

Definition no_action : scanning_action := fun _ _ => [].

Example test_register_young :
  option_map (fun s => (caml_global_roots_young s !! 8, caml_global_roots_old s !! 8))
    (caml_register_generational_global_root 8 s_test)
  = Some (Some 0, None).
Proof. vm_compute. reflexivity. Qed.

Example test_scan :
  option_map trace
    (run_calls [Call_register_generational 8; Call_register_generational 16;
                Call_register_global_root 32; Call_scan_global_roots no_action;
                Call_scan_global_young_roots no_action;
                Call_scan_global_roots no_action] s_test)
  = Some [32; 8; 16; 24; 32; 8; 32; 8; 16; 24].
Proof. vm_compute. reflexivity. Qed.

(** The effect of [caml_delete_global_root] on the list it is given:
    a tombstone while the thread iterates, a structural removal
    otherwise. *)
Definition removal_effect (it : nat) (r : Z) (m : gmap Z Z) : gmap Z Z :=
  if Nat.ltb 0 it then
    match m !! r with
    | Some _ => <[r := ROOT_DELETED]> m
    | None => m
    end
  else delete r m.

(** The roots mutex is free whenever the thread is not iterating: the
    situation between two calls, and inside a scanning action run by
    [scan_native_globals]. *)
Definition mutex_free_unless_iterating (s : state) : Prop :=
  iterating_roots s = 0%nat -> roots_mutex_locked s = false.

(** ** Basic lemmas on the state *)

Lemma get_set_list_same l m s : get_list l (set_list l m s) = m.
Proof. destruct s, l; reflexivity. Qed.

Lemma get_set_list_other l l' m s :
  l ≠ l' -> get_list l' (set_list l m s) = get_list l' s.
Proof. destruct s, l, l'; simpl; congruence. Qed.

Lemma set_list_get l s : set_list l (get_list l s) s = s.
Proof. destruct s, l; reflexivity. Qed.

Lemma set_list_set_list l m m' s :
  set_list l m (set_list l m' s) = set_list l m s.
Proof. destruct s, l; reflexivity. Qed.

Lemma unlock_set_list_lock l m s :
  roots_mutex_locked s = false ->
  unlock (set_list l m (set_mutex true s)) = set_list l m s.
Proof. destruct s, l; simpl; intros ->; reflexivity. Qed.

Lemma set_list_fields l m s :
  mem (set_list l m s) = mem s /\
  roots_mutex_locked (set_list l m s) = roots_mutex_locked s /\
  iterating_roots (set_list l m s) = iterating_roots s /\
  caml_minor_heaps_start (set_list l m s) = caml_minor_heaps_start s /\
  caml_minor_heaps_end (set_list l m s) = caml_minor_heaps_end s /\
  caml_globals (set_list l m s) = caml_globals s /\
  caml_dyn_globals (set_list l m s) = caml_dyn_globals s /\
  trace (set_list l m s) = trace s.
Proof. destruct s, l; simpl; repeat split. Qed.

Lemma classify_set_list l m s v :
  classify_gc_root (set_list l m s) v = classify_gc_root s v.
Proof. destruct s, l; reflexivity. Qed.

Lemma delete_global_root_eq l r s :
  mutex_free_unless_iterating s ->
  caml_delete_global_root l r s
  = Some (set_list l (removal_effect (iterating_roots s) r (get_list l s)) s).
Proof.
  unfold mutex_free_unless_iterating, caml_delete_global_root, removal_effect.
  intros Hfree.
  destruct (Nat.ltb 0 (iterating_roots s)) eqn:Hit.
  - destruct (get_list l s !! r); [reflexivity|by rewrite set_list_get].
  - apply Nat.ltb_ge in Hit.
    assert (Hl : roots_mutex_locked s = false) by (apply Hfree; lia).
    unfold lock_blocking. rewrite Hl. simpl.
    f_equal. destruct s, l; simpl in *; subst; reflexivity.
Qed.

Lemma insert_global_root_eq l r s :
  roots_mutex_locked s = false ->
  caml_insert_global_root l r s
  = Some (set_list l (<[r := ROOT_PRESENT]> (get_list l s)) s).
Proof.
  intros Hl. unfold caml_insert_global_root, lock_blocking. rewrite Hl.
  simpl. f_equal. destruct s, l; simpl in *; subst; reflexivity.
Qed.

Lemma removal_effect_not_live it r m :
  ~ registered (removal_effect it r m) r.
Proof.
  unfold registered, removal_effect, ROOT_PRESENT, ROOT_DELETED.
  destruct (Nat.ltb 0 it).
  - destruct (m !! r) eqn:E.
    + rewrite lookup_insert_eq. congruence.
    + rewrite E. congruence.
  - rewrite lookup_delete_eq. congruence.
Qed.

Lemma removal_effect_other it r m k :
  k ≠ r -> removal_effect it r m !! k = m !! k.
Proof.
  intros Hk. unfold removal_effect.
  destruct (Nat.ltb 0 it).
  - destruct (m !! r); [by rewrite lookup_insert_ne|reflexivity].
  - by rewrite lookup_delete_ne.
Qed.

(** ** C3: deferred promotion *)

(** C3. When the new value points into the old generation and the current
    value of the root is a heap reference, [caml_modify_generational_global_root]
    inserts into and removes from no list: its only effect is [*r = v]. *)
Theorem modify_to_old_only_stores (s : state) (r v : Z) :
  classify_gc_root s v = OLD ->
  classify_gc_root s (mem s r) ≠ UNTRACKED ->
  caml_modify_generational_global_root r v s = Some (store r v s).
Proof.
  intros Hv Hr. unfold caml_modify_generational_global_root. rewrite Hv.
  destruct (decide (classify_gc_root s (mem s r) = UNTRACKED)); [contradiction|].
  reflexivity.
Qed.

Lemma modify_to_old_only_stores_witness :
  let s := s_test in
  (classify_gc_root s 196608 = OLD /\ classify_gc_root s (mem s 8) ≠ UNTRACKED)
  /\ caml_modify_generational_global_root 8 196608 s = Some (store 8 196608 s).
Proof.
  simpl. split; [split; [reflexivity|discriminate]|].
  apply modify_to_old_only_stores; [reflexivity|discriminate].
Defined.

(** ** C6: the removal protocol *)

(** C6. [caml_delete_global_root] changes only the list it is given.
    While the thread iterates it marks the entry of [r], when there is
    one, [ROOT_DELETED] in place, keeping the set of keys; otherwise it
    removes the entry structurally under the mutex (acquired and
    released). Removing an address absent from the list leaves the list
    unchanged in both cases. *)
Theorem delete_global_root_protocol (l : rootlist) (r : Z) (s : state) :
  mutex_free_unless_iterating s ->
  exists m',
    caml_delete_global_root l r s = Some (set_list l m' s) /\
    ((0 < iterating_roots s)%nat ->
       dom m' = dom (get_list l s) /\
       (forall k, k ≠ r -> m' !! k = get_list l s !! k) /\
       (is_Some (get_list l s !! r) -> m' !! r = Some ROOT_DELETED)) /\
    (iterating_roots s = 0%nat -> m' = delete r (get_list l s)) /\
    (get_list l s !! r = None -> m' = get_list l s).
Proof.
  intros Hfree. exists (removal_effect (iterating_roots s) r (get_list l s)).
  split; [by apply delete_global_root_eq|].
  unfold removal_effect. split; [|split].
  - intros Hit. apply Nat.ltb_lt in Hit. rewrite Hit.
    destruct (get_list l s !! r) eqn:E.
    + split; [|split].
      * rewrite dom_insert_L. apply elem_of_dom_2 in E. set_solver.
      * intros k Hk. by rewrite lookup_insert_ne.
      * intros _. by rewrite lookup_insert_eq.
    + split; [reflexivity|split; [reflexivity|]].
      intros [? H]. congruence.
  - intros ->. reflexivity.
  - intros E. rewrite E. destruct (Nat.ltb 0 (iterating_roots s)); [reflexivity|].
    by apply delete_id.
Qed.

Lemma delete_global_root_protocol_witness :
  mutex_free_unless_iterating s_test /\
  exists m', caml_delete_global_root Young_roots 8 s_test
             = Some (set_list Young_roots m' s_test) /\
    ((0 < iterating_roots s_test)%nat ->
       dom m' = dom (get_list Young_roots s_test) /\
       (forall k, k ≠ 8 -> m' !! k = get_list Young_roots s_test !! k) /\
       (is_Some (get_list Young_roots s_test !! 8) -> m' !! 8 = Some ROOT_DELETED)) /\
    (iterating_roots s_test = 0%nat -> m' = delete 8 (get_list Young_roots s_test)) /\
    (get_list Young_roots s_test !! 8 = None -> m' = get_list Young_roots s_test).
Proof.
  assert (H : mutex_free_unless_iterating s_test) by (intros _; reflexivity).
  split; [exact H|].
  apply (delete_global_root_protocol Young_roots 8 s_test H).
Defined.

(** ** C7: removal of a generational root *)

(** C7. [caml_remove_generational_global_root r] goes by the class of
    [*r]: for [OLD] it removes [r] from the old list and also from the
    young list; for [YOUNG] it removes [r] from the young list only;
    for [UNTRACKED] it changes nothing. Removal follows the protocol of
    [caml_delete_global_root]; memory and the mutable list are
    untouched. *)
Theorem remove_generational_cases (s : state) (r : Z) :
  mutex_free_unless_iterating s ->
  exists s',
    caml_remove_generational_global_root r s = Some s' /\
    mem s' = mem s /\
    caml_global_roots s' = caml_global_roots s /\
    match classify_gc_root s (mem s r) with
    | OLD =>
      caml_global_roots_old s'
        = removal_effect (iterating_roots s) r (caml_global_roots_old s) /\
      caml_global_roots_young s'
        = removal_effect (iterating_roots s) r (caml_global_roots_young s)
    | YOUNG =>
      caml_global_roots_young s'
        = removal_effect (iterating_roots s) r (caml_global_roots_young s) /\
      caml_global_roots_old s' = caml_global_roots_old s
    | UNTRACKED => s' = s
    end.
Proof.
  intros Hfree. unfold caml_remove_generational_global_root.
  destruct (classify_gc_root s (mem s r)) eqn:Hc.
  - rewrite delete_global_root_eq by assumption.
    eexists; split; [reflexivity|].
    destruct s; simpl; repeat split; reflexivity.
  - rewrite delete_global_root_eq by assumption. simpl.
    rewrite delete_global_root_eq.
    + eexists; split; [reflexivity|].
      destruct s; simpl; repeat split; reflexivity.
    + unfold mutex_free_unless_iterating in *.
      destruct s; simpl in *; exact Hfree.
  - eexists; split; [reflexivity|]. repeat split; reflexivity.
Qed.

Lemma remove_generational_cases_witness :
  mutex_free_unless_iterating s_test /\
  exists s', caml_remove_generational_global_root 8 s_test = Some s' /\
    mem s' = mem s_test /\
    caml_global_roots s' = caml_global_roots s_test /\
    match classify_gc_root s_test (mem s_test 8) with
    | OLD =>
      caml_global_roots_old s'
        = removal_effect (iterating_roots s_test) 8 (caml_global_roots_old s_test) /\
      caml_global_roots_young s'
        = removal_effect (iterating_roots s_test) 8 (caml_global_roots_young s_test)
    | YOUNG =>
      caml_global_roots_young s'
        = removal_effect (iterating_roots s_test) 8 (caml_global_roots_young s_test) /\
      caml_global_roots_old s' = caml_global_roots_old s_test
    | UNTRACKED => s' = s_test
    end.
Proof.
  assert (H : mutex_free_unless_iterating s_test) by (intros _; reflexivity).
  split; [exact H|].
  apply (remove_generational_cases s_test 8 H).
Defined.

Lemma store_fields r v s :
  caml_global_roots (store r v s) = caml_global_roots s /\
  caml_global_roots_young (store r v s) = caml_global_roots_young s /\
  caml_global_roots_old (store r v s) = caml_global_roots_old s /\
  roots_mutex_locked (store r v s) = roots_mutex_locked s /\
  iterating_roots (store r v s) = iterating_roots s /\
  mem (store r v s) r = v.
Proof. destruct s; simpl; rewrite ?Z.eqb_refl; repeat split. Qed.

Lemma classify_store r v s w :
  classify_gc_root (store r v s) w = classify_gc_root s w.
Proof. destruct s; reflexivity. Qed.

Lemma mutex_free_of_unlocked s :
  roots_mutex_locked s = false -> mutex_free_unless_iterating s.
Proof. intros H _. exact H. Qed.

Lemma live_count_delete_not_live (m : gmap Z Z) (a : Z) :
  ~ registered m a -> live_count (delete a m) = live_count m.
Proof.
  unfold live_count, registered. intros Ha.
  rewrite map_filter_delete. rewrite delete_id; [reflexivity|].
  apply map_lookup_filter_None. destruct (m !! a) eqn:E; [right|left; reflexivity].
  intros x Hx. inversion Hx; subst. simpl. congruence.
Qed.

(** ** C2: reclassification of a young root that comes to point to the
    old generation *)

(** The two calls of property P4 run from [s_test]: root [8] holds the
    young pointer [4104] and is then set to [196608], a block outside the
    minor heaps. The root stays in the young list and is not added to
    the old list. *)
Lemma young_root_set_old_stays_young :
  match run_calls [Call_register_generational 8;
                   Call_modify_generational 8 196608] s_test with
  | Some s2 =>
    classify_gc_root s_test 4104 = YOUNG /\
    classify_gc_root s_test 196608 = OLD /\
    registered (caml_global_roots_young s2) 8 /\
    caml_global_roots_old s2 !! 8 = None
  | None => False
  end.
Proof. vm_compute. repeat split. Qed.

(** C2 (as the code does it). After registering [A] while it points into
    the young generation, setting it to a value pointing into the old
    generation leaves [A] registered in the young list and leaves the old
    list as it was; only [*A] changes. The move to the old list is
    deferred to the next [caml_scan_global_young_roots]. *)
Theorem register_young_then_set_old (s : state) (A v : Z) :
  roots_mutex_locked s = false ->
  classify_gc_root s (mem s A) = YOUNG ->
  classify_gc_root s v = OLD ->
  exists s2,
    run_calls [Call_register_generational A; Call_modify_generational A v] s
      = Some s2 /\
    registered (caml_global_roots_young s2) A /\
    caml_global_roots_old s2 = caml_global_roots_old s /\
    mem s2 A = v.
Proof.
  intros Hl Hc Hv. simpl. unfold caml_register_generational_global_root.
  rewrite Hc, insert_global_root_eq by assumption. simpl.
  rewrite modify_to_old_only_stores.
  - eexists; split; [reflexivity|].
    destruct (store_fields A v (set_list Young_roots
      (<[A:=ROOT_PRESENT]> (caml_global_roots_young s)) s)) as (_ & -> & -> & _ & _ & ->).
    rewrite (get_set_list_same Young_roots).
    rewrite (get_set_list_other Young_roots Old_roots) by discriminate.
    split; [unfold registered; by rewrite lookup_insert_eq|split; reflexivity].
  - by rewrite classify_set_list.
  - rewrite classify_set_list. destruct (set_list_fields Young_roots
      (<[A:=ROOT_PRESENT]> (caml_global_roots_young s)) s) as [-> _].
    rewrite Hc. discriminate.
Qed.

Lemma register_young_then_set_old_witness :
  exists s2,
    run_calls [Call_register_generational 8; Call_modify_generational 8 196608] s_test
      = Some s2 /\
    registered (caml_global_roots_young s2) 8 /\
    caml_global_roots_old s2 = caml_global_roots_old s_test /\
    mem s2 8 = 196608.
Proof.
  apply register_young_then_set_old; reflexivity.
Defined.

(** ** C4: roots holding values outside the heap *)

(** The claim's notion of the managed heap: the minor heaps area and the
    chunks of the major heap. The classification of globroots.c tests
    neither the major heap nor any heap membership. *)
Definition in_managed_heap (s : state) (major_chunks : list (Z * Z)) (v : Z)
  : bool :=
  Is_young (caml_minor_heaps_start s) (caml_minor_heaps_end s) v ||
  existsb (fun '(lo, hi) => (lo <=? v) && (v <? hi)) major_chunks.

(** C4 (evaluation at a block outside the heap). With the minor heaps at
    [(4096, 8192)] and a major heap made of the chunk [[65536, 131072)],
    root [16] holds [196608], a block pointer outside the managed heap;
    [classify_gc_root] answers [OLD] and registration inserts the root
    into the old list. *)
Lemma register_out_of_heap_pointer_goes_old :
  Is_block (mem s_test 16) = true /\
  in_managed_heap s_test [(65536, 131072)] (mem s_test 16) = false /\
  classify_gc_root s_test (mem s_test 16) = OLD /\
  option_map (fun s => caml_global_roots_old s !! 16)
    (caml_register_generational_global_root 16 s_test)
  = Some (Some ROOT_PRESENT).
Proof. vm_compute. repeat split. Qed.

(** ** C8: round trip of a young generational root *)

(** C8. With no scan in progress, registering a root [A] that points into
    the young generation and is not registered yet, then unregistering
    it with [*A] unchanged, leaves the old list as it was and the young
    list with as many live entries as before; when [A] had no entry at
    all (not even a tombstone), the young list has its former size. *)
Theorem register_remove_young_round_trip (s : state) (A : Z) :
  iterating_roots s = 0%nat ->
  roots_mutex_locked s = false ->
  classify_gc_root s (mem s A) = YOUNG ->
  ~ registered (caml_global_roots_young s) A ->
  exists s2,
    run_calls [Call_register_generational A; Call_remove_generational A] s
      = Some s2 /\
    caml_global_roots_old s2 = caml_global_roots_old s /\
    size (caml_global_roots_old s2) = size (caml_global_roots_old s) /\
    live_count (caml_global_roots_young s2) = live_count (caml_global_roots_young s) /\
    (caml_global_roots_young s !! A = None ->
       size (caml_global_roots_young s2) = size (caml_global_roots_young s)).
Proof.
  intros Hit Hl Hc Hnot. simpl. unfold caml_register_generational_global_root.
  rewrite Hc, insert_global_root_eq by assumption. simpl.
  set (s1 := set_list Young_roots (<[A:=ROOT_PRESENT]> (caml_global_roots_young s)) s).
  destruct (set_list_fields Young_roots
    (<[A:=ROOT_PRESENT]> (caml_global_roots_young s)) s)
    as (Hm1 & Hl1 & Hit1 & _).
  fold s1 in Hm1, Hl1, Hit1.
  assert (Hcl : forall w, classify_gc_root s1 w = classify_gc_root s w)
    by (intros; apply classify_set_list).
  unfold caml_remove_generational_global_root.
  rewrite Hcl, Hm1, Hc.
  rewrite delete_global_root_eq by (apply mutex_free_of_unlocked; congruence).
  simpl.
  eexists; split; [reflexivity|].
  rewrite (get_set_list_same Young_roots), Hit1, Hit.
  rewrite (get_set_list_other Young_roots Old_roots) by discriminate.
  unfold s1. rewrite (get_set_list_other Young_roots Old_roots) by discriminate.
  rewrite (get_set_list_same Young_roots). simpl get_list.
  unfold removal_effect. simpl Nat.ltb. cbv iota.
  rewrite delete_insert_eq.
  split; [reflexivity|split; [reflexivity|split]].
  - by apply live_count_delete_not_live.
  - intros HA. by rewrite delete_id.
Qed.

Lemma register_remove_young_round_trip_witness :
  exists s2,
    run_calls [Call_register_generational 8; Call_remove_generational 8] s_test
      = Some s2 /\
    caml_global_roots_old s2 = caml_global_roots_old s_test /\
    size (caml_global_roots_old s2) = size (caml_global_roots_old s_test) /\
    live_count (caml_global_roots_young s2) = live_count (caml_global_roots_young s_test) /\
    (caml_global_roots_young s_test !! 8 = None ->
       size (caml_global_roots_young s2) = size (caml_global_roots_young s_test)).
Proof.
  apply register_remove_young_round_trip;
    [reflexivity|reflexivity|reflexivity|vm_compute; discriminate].
Defined.

(** ** C9: untracking a generational root *)

Lemma classify_untracked s v :
  Is_block v = false -> classify_gc_root s v = UNTRACKED.
Proof. unfold classify_gc_root. intros ->. reflexivity. Qed.

Lemma remove_generational_untracked s r :
  Is_block (mem s r) = false -> caml_remove_generational_global_root r s = Some s.
Proof.
  intros H. unfold caml_remove_generational_global_root.
  by rewrite classify_untracked.
Qed.

Lemma remove_generational_young s r :
  mutex_free_unless_iterating s ->
  classify_gc_root s (mem s r) = YOUNG ->
  caml_remove_generational_global_root r s
  = Some (set_list Young_roots
            (removal_effect (iterating_roots s) r (caml_global_roots_young s)) s).
Proof.
  intros Hf Hc. unfold caml_remove_generational_global_root. rewrite Hc.
  by rewrite delete_global_root_eq.
Qed.

Lemma remove_generational_old s r :
  mutex_free_unless_iterating s ->
  classify_gc_root s (mem s r) = OLD ->
  caml_remove_generational_global_root r s
  = Some (set_list Young_roots
            (removal_effect (iterating_roots s) r (caml_global_roots_young s))
            (set_list Old_roots
               (removal_effect (iterating_roots s) r (caml_global_roots_old s)) s)).
Proof.
  intros Hf Hc. unfold caml_remove_generational_global_root. rewrite Hc.
  rewrite delete_global_root_eq by assumption. simpl.
  rewrite delete_global_root_eq.
  - destruct s; reflexivity.
  - unfold mutex_free_unless_iterating in *. destruct s; exact Hf.
Qed.

Lemma modify_untracked_eq s r v :
  Is_block v = false ->
  caml_modify_generational_global_root r v s
  = (s1 ← caml_remove_generational_global_root r s; Some (store r v s1)).
Proof.
  intros H. unfold caml_modify_generational_global_root.
  by rewrite (classify_untracked s v H).
Qed.

(** C9. With no scan in progress, registering a root [A] that holds a
    heap reference and is registered in neither generational list, then
    setting it to an immediate value [i], leaves [A] registered in
    neither list with [*A = i]; a later
    [caml_remove_generational_global_root A] changes nothing. *)
Theorem register_then_untrack (s : state) (A i : Z) :
  iterating_roots s = 0%nat ->
  roots_mutex_locked s = false ->
  Is_block (mem s A) = true ->
  ~ registered (caml_global_roots_young s) A ->
  ~ registered (caml_global_roots_old s) A ->
  Is_block i = false ->
  exists s2,
    run_calls [Call_register_generational A; Call_modify_generational A i] s
      = Some s2 /\
    ~ registered (caml_global_roots_young s2) A /\
    ~ registered (caml_global_roots_old s2) A /\
    mem s2 A = i /\
    caml_remove_generational_global_root A s2 = Some s2.
Proof.
  intros Hit Hl Hb Hy Ho Hi. simpl. unfold caml_register_generational_global_root.
  destruct (classify_gc_root s (mem s A)) eqn:Hc.
  - (* YOUNG *)
    rewrite insert_global_root_eq by assumption. simpl.
    rewrite modify_untracked_eq by assumption.
    rewrite remove_generational_young.
    2: { apply mutex_free_of_unlocked. destruct s; exact Hl. }
    2: { rewrite classify_set_list. destruct s; exact Hc. }
    simpl. eexists; split; [reflexivity|].
    destruct s; simpl in *. rewrite Z.eqb_refl.
    split; [apply removal_effect_not_live|split; [exact Ho|split; [reflexivity|]]].
    apply remove_generational_untracked. simpl. by rewrite Z.eqb_refl.
  - (* OLD *)
    rewrite insert_global_root_eq by assumption. simpl.
    rewrite modify_untracked_eq by assumption.
    rewrite remove_generational_old.
    2: { apply mutex_free_of_unlocked. destruct s; exact Hl. }
    2: { rewrite classify_set_list. destruct s; exact Hc. }
    simpl. eexists; split; [reflexivity|].
    destruct s; simpl in *. rewrite Z.eqb_refl.
    split; [apply removal_effect_not_live|
      split; [apply removal_effect_not_live|split; [reflexivity|]]].
    apply remove_generational_untracked. simpl. by rewrite Z.eqb_refl.
  - (* UNTRACKED: impossible for a block *)
    exfalso. unfold classify_gc_root in Hc. rewrite Hb in Hc. simpl in Hc.
    destruct (Is_young _ _ _); discriminate.
Qed.

Lemma register_then_untrack_witness :
  exists s2,
    run_calls [Call_register_generational 8; Call_modify_generational 8 1] s_test
      = Some s2 /\
    ~ registered (caml_global_roots_young s2) 8 /\
    ~ registered (caml_global_roots_old s2) 8 /\
    mem s2 8 = 1 /\
    caml_remove_generational_global_root 8 s2 = Some s2.
Proof.
  apply register_then_untrack;
    [reflexivity|reflexivity|reflexivity|vm_compute; discriminate
    |vm_compute; discriminate|reflexivity].
Defined.

(** ** Keys of a skip list *)

Lemma skiplist_keys_spec (m : gmap Z Z) (k : Z) :
  k ∈ skiplist_keys m <-> is_Some (m !! k).
Proof.
  unfold skiplist_keys. rewrite (merge_sort_Permutation _ _).
  rewrite elem_of_elements. apply elem_of_dom.
Qed.

Lemma skiplist_keys_NoDup (m : gmap Z Z) : NoDup (skiplist_keys m).
Proof.
  unfold skiplist_keys. rewrite (merge_sort_Permutation _ _).
  apply NoDup_elements.
Qed.

(** ** C10: promotion ignores tombstones *)

Lemma promote_fold_keeps (ks : list Z) (o : gmap Z Z) (k : Z) :
  o !! k = Some ROOT_PRESENT ->
  fold_left (fun o k => skiplist_insert k 0 o) ks o !! k = Some ROOT_PRESENT.
Proof.
  revert o. induction ks as [|k' ks IH]; intros o Ho; simpl; [exact Ho|].
  apply IH. unfold skiplist_insert.
  destruct (decide (k' = k)) as [->|Hne].
  - by rewrite lookup_insert_eq.
  - by rewrite lookup_insert_ne.
Qed.

Lemma promote_fold_sets (ks : list Z) (o : gmap Z Z) (k : Z) :
  k ∈ ks ->
  fold_left (fun o k => skiplist_insert k 0 o) ks o !! k = Some ROOT_PRESENT.
Proof.
  revert o. induction ks as [|k' ks IH]; intros o Hk; simpl.
  - by apply not_elem_of_nil in Hk.
  - apply elem_of_cons in Hk as [->|Hk].
    + apply promote_fold_keeps. unfold skiplist_insert.
      by rewrite lookup_insert_eq.
    + by apply IH.
Qed.

(** Scanning action used below: when it visits root [8] it unregisters
    it (generational kind), as a finalisation-like callback would. *)
Definition unregister_8_on_visit : scanning_action :=
  fun _ r => if Z.eqb r 8 then [Act_remove_generational 8] else [].

(** C10. The promotion step inserts every entry left in the young list
    into the old list with [ROOT_PRESENT], whatever the entry's mark.
    Hence a young root that the scanning action unregisters when it is
    visited is tombstoned in the young list during the walk, comes back
    as a present entry of the old list, and the next
    [caml_scan_global_roots] visits it. *)
Theorem promotion_revives_tombstones :
  (forall (young old : gmap Z Z) (k : Z),
     is_Some (young !! k) ->
     promote_young young old !! k = Some ROOT_PRESENT) /\
  option_map (fun s => caml_global_roots_young s !! 8)
    (run_calls [Call_register_generational 8] s_test ≫= fun s =>
     caml_iterate_global_roots unregister_8_on_visit Young_roots
       (set_iterating 1 (set_mutex true s)))
    = Some (Some ROOT_DELETED) /\
  match run_calls [Call_register_generational 8;
                   Call_scan_global_young_roots unregister_8_on_visit] s_test with
  | Some s1 =>
    caml_global_roots_young s1 = ∅ /\
    registered (caml_global_roots_old s1) 8 /\
    option_map (fun s2 => Nat.sub (count_occ Z.eq_dec (trace s2) 8)
                                  (count_occ Z.eq_dec (trace s1) 8))
      (caml_scan_global_roots no_action s1) = Some 1%nat
  | None => False
  end.
Proof.
  split; [|split].
  - intros young old k Hk. unfold promote_young.
    apply promote_fold_sets. by apply skiplist_keys_spec.
  - vm_compute. reflexivity.
  - vm_compute. repeat split.
Qed.

Lemma promotion_revives_tombstones_witness :
  is_Some (({[8 := ROOT_DELETED]} : gmap Z Z) !! 8) /\
  promote_young {[8 := ROOT_DELETED]} ∅ !! 8 = Some ROOT_PRESENT.
Proof.
  assert (H : is_Some (({[8 := ROOT_DELETED]} : gmap Z Z) !! 8))
    by (eexists; reflexivity).
  split; [exact H|].
  apply (proj1 promotion_revives_tombstones); exact H.
Defined.

(** ** Scans whose scanning actions only write memory *)

Definition is_write (a : action) : Prop :=
  match a with Act_write _ _ => True | _ => False end.

(** The scanning action of a collection: it relocates roots (writes to
    memory) and calls no registration function. *)
Definition writes_only (f : scanning_action) : Prop :=
  forall v r, Forall is_write (f v r).

Definition set_mem (me : Z -> Z) (s : state) : state :=
  match s with
  | mkState _ g y o lk it lo hi gl dg tr => mkState me g y o lk it lo hi gl dg tr
  end.

Definition append_trace (t : list Z) (s : state) : state :=
  match s with
  | mkState me g y o lk it lo hi gl dg tr => mkState me g y o lk it lo hi gl dg (tr ++ t)
  end.

(** The walk of [caml_iterate_global_roots] over keys [ks] of list [m]
    when the scanning action leaves the lists alone: the list left
    behind, and the keys passed to the scanning action. *)
Fixpoint purge_keys (ks : list Z) (m : gmap Z Z) : gmap Z Z :=
  match ks with
  | [] => m
  | k :: ks' =>
    match m !! k with
    | Some d => if Z.eqb d ROOT_DELETED then purge_keys ks' (delete k m)
                else purge_keys ks' m
    | None => purge_keys ks' m
    end
  end.

Fixpoint walk_keys (ks : list Z) (m : gmap Z Z) : list Z :=
  match ks with
  | [] => []
  | k :: ks' =>
    match m !! k with
    | Some d => if Z.eqb d ROOT_DELETED then walk_keys ks' (delete k m)
                else k :: walk_keys ks' m
    | None => walk_keys ks' m
    end
  end.

Lemma exec_actions_writes (l : list action) (s : state) :
  Forall is_write l -> exists me, exec_actions l s = Some (set_mem me s).
Proof.
  revert s. induction l as [|a l IH]; intros s Hl; simpl.
  - exists (mem s). destruct s; reflexivity.
  - apply Forall_cons in Hl as [Ha Hl]. destruct a; try contradiction.
    simpl. destruct (IH (store a v s) Hl) as [me Hme]. exists me.
    rewrite Hme. destruct s; reflexivity.
Qed.

Lemma iterate_keys_writes (f : scanning_action) (l : rootlist) (ks : list Z)
  (s : state) :
  writes_only f ->
  exists me, iterate_keys f l ks s =
    Some (set_mem me (set_list l (purge_keys ks (get_list l s))
                        (append_trace (walk_keys ks (get_list l s)) s))).
Proof.
  intros Hf. revert s. induction ks as [|k ks IH]; intros s; simpl.
  - exists (mem s). destruct s, l; simpl; rewrite app_nil_r; reflexivity.
  - destruct (get_list l s !! k) as [d|] eqn:Ek.
    + destruct (Z.eqb d ROOT_DELETED).
      * simpl. destruct (IH (set_list l (skiplist_remove k (get_list l s)) s))
          as [me Hme]. exists me. rewrite Hme, get_set_list_same.
        unfold skiplist_remove. destruct s, l; reflexivity.
      * unfold call_action.
        destruct (exec_actions_writes (f (mem s k) k) (log_call k s) (Hf _ _))
          as [me1 H1]. rewrite H1. simpl.
        destruct (IH (set_mem me1 (log_call k s))) as [me Hme]. exists me.
        rewrite Hme.
        replace (get_list l (set_mem me1 (log_call k s))) with (get_list l s)
          by (destruct s, l; reflexivity).
        destruct s, l; simpl; rewrite <- app_assoc; reflexivity.
    + simpl. destruct (IH s) as [me Hme]. exists me. exact Hme.
Qed.

Lemma scan_slots_writes (f : scanning_action) (slots : list Z) (s : state) :
  writes_only f ->
  exists me, scan_slots f slots s = Some (set_mem me (append_trace slots s)).
Proof.
  intros Hf. revert s. induction slots as [|a slots IH]; intros s; simpl.
  - exists (mem s). destruct s; simpl; rewrite app_nil_r; reflexivity.
  - unfold call_action.
    destruct (exec_actions_writes (f (mem s a) a) (log_call a s) (Hf _ _))
      as [me1 H1]. rewrite H1. simpl.
    destruct (IH (set_mem me1 (log_call a s))) as [me Hme]. exists me.
    rewrite Hme. destruct s; simpl; rewrite <- app_assoc; reflexivity.
Qed.

Lemma scan_young_writes (f : scanning_action) me g y o it lo hi gl dg tr :
  writes_only f ->
  exists me',
    caml_scan_global_young_roots f (mkState me g y o false it lo hi gl dg tr)
    = Some (mkState me' (purge_keys (skiplist_keys g) g) ∅
              (promote_young (purge_keys (skiplist_keys y) y) o)
              false it lo hi gl dg
              (tr ++ walk_keys (skiplist_keys g) g ++ walk_keys (skiplist_keys y) y)).
Proof.
  intros Hf. unfold caml_scan_global_young_roots, lock_blocking. simpl.
  unfold caml_iterate_global_roots. simpl.
  destruct (iterate_keys_writes f Global_roots (skiplist_keys g)
              (mkState me g y o true (S it) lo hi gl dg tr) Hf) as [me1 H1].
  rewrite H1. simpl.
  destruct (iterate_keys_writes f Young_roots (skiplist_keys y)
              (mkState me1 (purge_keys (skiplist_keys g) g) y o true (S it) lo hi gl dg
                 (tr ++ walk_keys (skiplist_keys g) g)) Hf) as [me2 H2].
  rewrite H2. simpl. exists me2. rewrite <- app_assoc. reflexivity.
Qed.

Lemma scan_all_writes (f : scanning_action) me g y o it lo hi gl dg tr :
  writes_only f ->
  exists me',
    caml_scan_global_roots f (mkState me g y o false it lo hi gl dg tr)
    = Some (mkState me' (purge_keys (skiplist_keys g) g)
              (purge_keys (skiplist_keys y) y) (purge_keys (skiplist_keys o) o)
              false it lo hi gl dg
              (tr ++ walk_keys (skiplist_keys g) g ++ walk_keys (skiplist_keys y) y
                  ++ walk_keys (skiplist_keys o) o ++ concat gl ++ concat dg)).
Proof.
  intros Hf. unfold caml_scan_global_roots, lock_blocking. simpl.
  unfold caml_iterate_global_roots. simpl.
  destruct (iterate_keys_writes f Global_roots (skiplist_keys g)
              (mkState me g y o true (S it) lo hi gl dg tr) Hf) as [me1 H1].
  rewrite H1. simpl.
  destruct (iterate_keys_writes f Young_roots (skiplist_keys y)
              (mkState me1 (purge_keys (skiplist_keys g) g) y o true (S it) lo hi gl dg
                 (tr ++ walk_keys (skiplist_keys g) g)) Hf) as [me2 H2].
  rewrite H2. simpl.
  destruct (iterate_keys_writes f Old_roots (skiplist_keys o)
              (mkState me2 (purge_keys (skiplist_keys g) g)
                 (purge_keys (skiplist_keys y) y) o true (S it) lo hi gl dg
                 ((tr ++ walk_keys (skiplist_keys g) g) ++ walk_keys (skiplist_keys y) y))
              Hf) as [me3 H3].
  rewrite H3. simpl.
  unfold scan_native_globals, lock_blocking. simpl.
  destruct (scan_slots_writes f (concat gl)
              (mkState me3 (purge_keys (skiplist_keys g) g)
                 (purge_keys (skiplist_keys y) y) (purge_keys (skiplist_keys o) o)
                 false it lo hi gl dg
                 (((tr ++ walk_keys (skiplist_keys g) g) ++ walk_keys (skiplist_keys y) y)
                    ++ walk_keys (skiplist_keys o) o)) Hf) as [me4 H4].
  rewrite H4. simpl.
  destruct (scan_slots_writes f (concat dg)
              (mkState me4 (purge_keys (skiplist_keys g) g)
                 (purge_keys (skiplist_keys y) y) (purge_keys (skiplist_keys o) o)
                 false it lo hi gl dg
                 ((((tr ++ walk_keys (skiplist_keys g) g) ++ walk_keys (skiplist_keys y) y)
                    ++ walk_keys (skiplist_keys o) o) ++ concat gl)) Hf) as [me5 H5].
  rewrite H5. simpl. exists me5. rewrite <- !app_assoc. reflexivity.
Qed.

Lemma purge_keys_live (ks : list Z) (m : gmap Z Z) (a d : Z) :
  m !! a = Some d -> d ≠ ROOT_DELETED -> purge_keys ks m !! a = Some d.
Proof.
  revert m. induction ks as [|k ks IH]; intros m Ha Hd; simpl; [exact Ha|].
  destruct (m !! k) as [d'|] eqn:Ek; [|by apply IH].
  destruct (Z.eqb_spec d' ROOT_DELETED); [|by apply IH].
  apply IH; [|exact Hd]. rewrite lookup_delete_ne; [exact Ha|].
  intros ->. congruence.
Qed.

Lemma purge_keys_absent (ks : list Z) (m : gmap Z Z) (a : Z) :
  m !! a = None -> purge_keys ks m !! a = None.
Proof.
  revert m. induction ks as [|k ks IH]; intros m Ha; simpl; [exact Ha|].
  destruct (m !! k) as [d'|]; [|by apply IH].
  destruct (Z.eqb d' ROOT_DELETED); apply IH; [|exact Ha].
  destruct (decide (k = a)) as [->|Hne];
    [apply lookup_delete_eq|by rewrite lookup_delete_ne].
Qed.

Lemma walk_keys_absent (ks : list Z) (m : gmap Z Z) (a : Z) :
  m !! a = None -> count_occ Z.eq_dec (walk_keys ks m) a = 0%nat.
Proof.
  revert m. induction ks as [|k ks IH]; intros m Ha; simpl; [reflexivity|].
  destruct (m !! k) as [d'|] eqn:Ek; [|by apply IH].
  destruct (Z.eqb d' ROOT_DELETED).
  - apply IH. destruct (decide (k = a)) as [->|Hne];
      [apply lookup_delete_eq|by rewrite lookup_delete_ne].
  - simpl. destruct (Z.eq_dec k a) as [->|]; [congruence|by apply IH].
Qed.

Lemma walk_keys_not_key (ks : list Z) (m : gmap Z Z) (a : Z) :
  a ∉ ks -> count_occ Z.eq_dec (walk_keys ks m) a = 0%nat.
Proof.
  revert m. induction ks as [|k ks IH]; intros m Ha; simpl; [reflexivity|].
  apply not_elem_of_cons in Ha as [Hka Ha].
  destruct (m !! k) as [d'|]; [|by apply IH].
  destruct (Z.eqb d' ROOT_DELETED); [by apply IH|].
  simpl. destruct (Z.eq_dec k a); [congruence|by apply IH].
Qed.

Lemma walk_keys_live (ks : list Z) (m : gmap Z Z) (a d : Z) :
  NoDup ks -> a ∈ ks -> m !! a = Some d -> d ≠ ROOT_DELETED ->
  count_occ Z.eq_dec (walk_keys ks m) a = 1%nat.
Proof.
  revert m. induction ks as [|k ks IH]; intros m Hnd Hin Ha Hd;
    [by apply not_elem_of_nil in Hin|].
  apply NoDup_cons in Hnd as [Hk Hnd]. simpl.
  destruct (decide (k = a)) as [->|Hne].
  - rewrite Ha. destruct (Z.eqb_spec d ROOT_DELETED); [contradiction|].
    simpl. destruct (Z.eq_dec a a); [|congruence].
    f_equal. by apply walk_keys_not_key.
  - apply elem_of_cons in Hin as [->|Hin]; [congruence|].
    destruct (m !! k) as [d'|] eqn:Ek; [|by apply IH].
    destruct (Z.eqb d' ROOT_DELETED).
    + apply IH; try assumption. by rewrite lookup_delete_ne.
    + simpl. destruct (Z.eq_dec k a); [congruence|by apply IH].
Qed.

Lemma count_occ_app_Z (l1 l2 : list Z) (a : Z) :
  count_occ Z.eq_dec (l1 ++ l2) a
  = (count_occ Z.eq_dec l1 a + count_occ Z.eq_dec l2 a)%nat.
Proof. apply count_occ_app. Qed.

(** ** C5: promotion of a young root *)

(** C5. Register a generational root [A] pointing into the young
    generation ([A] is not a mutable root nor a field of a global), then
    run [caml_scan_global_young_roots] with a scanning action that only
    relocates (writes memory): the young list is then empty, [A] is
    registered in the old list, and a following [caml_scan_global_roots]
    (same kind of scanning action) calls the scanning action on [A]
    exactly once. *)
Theorem young_root_promoted_visited_once (s : state) (A : Z)
  (f g : scanning_action) :
  roots_mutex_locked s = false ->
  classify_gc_root s (mem s A) = YOUNG ->
  caml_global_roots s !! A = None ->
  A ∉ concat (caml_globals s) ++ concat (caml_dyn_globals s) ->
  writes_only f -> writes_only g ->
  exists s1 s2 s3,
    caml_register_generational_global_root A s = Some s1 /\
    caml_scan_global_young_roots f s1 = Some s2 /\
    caml_global_roots_young s2 = ∅ /\
    registered (caml_global_roots_old s2) A /\
    caml_scan_global_roots g s2 = Some s3 /\
    count_occ Z.eq_dec (trace s3) A = S (count_occ Z.eq_dec (trace s2) A).
Proof.
  intros Hl Hc Hg Hglob Hf Hg'.
  unfold caml_register_generational_global_root. rewrite Hc.
  rewrite insert_global_root_eq by assumption.
  destruct s as [me gr y o lk it lo hi gl dg tr]. simpl in Hl, Hg, Hglob. subst lk.
  simpl.
  destruct (scan_young_writes f me gr (<[A:=ROOT_PRESENT]> y) o it lo hi gl dg tr Hf)
    as [me1 H1].
  set (g1 := purge_keys (skiplist_keys gr) gr).
  set (o1 := promote_young (purge_keys (skiplist_keys (<[A:=ROOT_PRESENT]> y))
                                       (<[A:=ROOT_PRESENT]> y)) o).
  set (tr1 := tr ++ walk_keys (skiplist_keys gr) gr
                 ++ walk_keys (skiplist_keys (<[A:=ROOT_PRESENT]> y))
                      (<[A:=ROOT_PRESENT]> y)).
  fold g1 o1 tr1 in H1.
  assert (Ho1 : o1 !! A = Some ROOT_PRESENT).
  { unfold o1, promote_young. apply promote_fold_sets, skiplist_keys_spec.
    rewrite (purge_keys_live _ _ A ROOT_PRESENT); [eauto| |discriminate].
    apply lookup_insert_eq. }
  destruct (scan_all_writes g me1 g1 ∅ o1 it lo hi gl dg tr1 Hg') as [me2 H2].
  exists (set_list Young_roots (<[A:=ROOT_PRESENT]> y)
            (mkState me gr y o false it lo hi gl dg tr)).
  eexists. eexists.
  split; [reflexivity|]. split; [exact H1|]. split; [reflexivity|].
  split; [exact Ho1|]. split; [exact H2|]. simpl.
  rewrite !count_occ_app_Z.
  rewrite (walk_keys_absent _ g1 A) by (apply purge_keys_absent; exact Hg).
  rewrite (walk_keys_live (skiplist_keys o1) o1 A ROOT_PRESENT);
    [|apply skiplist_keys_NoDup|apply skiplist_keys_spec; eauto|exact Ho1|discriminate].
  replace (walk_keys (skiplist_keys (∅ : gmap Z Z)) ∅) with (@nil Z) by reflexivity.
  rewrite (proj1 (count_occ_not_In Z.eq_dec (concat gl) A)).
  - rewrite (proj1 (count_occ_not_In Z.eq_dec (concat dg) A)). { simpl. lia. }
    intros Hin. apply Hglob. apply elem_of_app. right. by apply list_elem_of_In.
  - intros Hin. apply Hglob. apply elem_of_app. left. by apply list_elem_of_In.
Qed.

Lemma no_action_writes_only : writes_only no_action.
Proof. intros v r. constructor. Qed.

Lemma young_root_promoted_visited_once_witness :
  exists s1 s2 s3,
    caml_register_generational_global_root 8 s_test = Some s1 /\
    caml_scan_global_young_roots no_action s1 = Some s2 /\
    caml_global_roots_young s2 = ∅ /\
    registered (caml_global_roots_old s2) 8 /\
    caml_scan_global_roots no_action s2 = Some s3 /\
    count_occ Z.eq_dec (trace s3) 8 = S (count_occ Z.eq_dec (trace s2) 8).
Proof.
  apply young_root_promoted_visited_once;
    [reflexivity|reflexivity|reflexivity| |exact no_action_writes_only
    |exact no_action_writes_only].
  simpl. intros H. apply elem_of_cons in H as [H|H]; [discriminate|].
  by apply not_elem_of_nil in H.
Defined.

(** ** C1: what the young list guarantees *)

Definition young_inv (s : state) : Prop :=
  forall r, registered (caml_global_roots_young s) r -> Is_block (mem s r) = true.

(** [s'] has the memory of [s] and no live young entry that [s] lacks. *)
Definition young_shrinks (s s' : state) : Prop :=
  mem s' = mem s /\
  forall k, registered (caml_global_roots_young s') k ->
            registered (caml_global_roots_young s) k.

Lemma young_shrinks_refl s : young_shrinks s s.
Proof. split; auto. Qed.

Lemma young_shrinks_trans s1 s2 s3 :
  young_shrinks s1 s2 -> young_shrinks s2 s3 -> young_shrinks s1 s3.
Proof. intros [H1 H1'] [H2 H2']. split; [congruence|auto]. Qed.

Lemma young_shrinks_inv s s' : young_inv s -> young_shrinks s s' -> young_inv s'.
Proof. intros Hi [Hm Hk] r Hr. rewrite Hm. auto. Qed.

Lemma classify_young_block s v : classify_gc_root s v = YOUNG -> Is_block v = true.
Proof.
  unfold classify_gc_root. destruct (Is_block v); [reflexivity|discriminate].
Qed.

Lemma classify_old_block s v : classify_gc_root s v = OLD -> Is_block v = true.
Proof.
  unfold classify_gc_root. destruct (Is_block v); [reflexivity|discriminate].
Qed.

Lemma insert_other_shrinks l r s s' :
  l ≠ Young_roots -> caml_insert_global_root l r s = Some s' -> young_shrinks s s'.
Proof.
  intros Hl. unfold caml_insert_global_root, lock_blocking.
  destruct (roots_mutex_locked s); [discriminate|]. simpl. intros [= <-].
  destruct s, l; simpl; try congruence; split; simpl; auto.
Qed.

Lemma insert_young_eq r s s' :
  caml_insert_global_root Young_roots r s = Some s' ->
  mem s' = mem s /\
  caml_global_roots_young s' = <[r := ROOT_PRESENT]> (caml_global_roots_young s).
Proof.
  unfold caml_insert_global_root, lock_blocking.
  destruct (roots_mutex_locked s); [discriminate|]. simpl. intros [= <-].
  destruct s; split; reflexivity.
Qed.

Lemma removal_effect_shrinks it r (m : gmap Z Z) k :
  removal_effect it r m !! k = Some ROOT_PRESENT -> m !! k = Some ROOT_PRESENT.
Proof.
  destruct (decide (k = r)) as [->|Hne].
  - intros H. exfalso. exact (removal_effect_not_live it r m H).
  - by rewrite removal_effect_other.
Qed.

Lemma delete_shrinks l r s s' :
  caml_delete_global_root l r s = Some s' ->
  young_shrinks s s' /\
  (l = Young_roots -> ~ registered (caml_global_roots_young s') r).
Proof.
  intros H.
  assert (Hs : exists m', s' = set_list l (removal_effect (iterating_roots s) r m') s
                          /\ m' = get_list l s).
  { exists (get_list l s). split; [|reflexivity].
    revert H. unfold caml_delete_global_root, removal_effect.
    destruct (Nat.ltb 0 (iterating_roots s)) eqn:Hit.
    - destruct (get_list l s !! r) eqn:E; intros [= <-];
        [reflexivity|by rewrite set_list_get].
    - unfold lock_blocking. destruct (roots_mutex_locked s) eqn:Hlk; [discriminate|].
      simpl. intros [= <-]. destruct s, l; simpl in *; subst; reflexivity. }
  destruct Hs as (m' & -> & ->). split.
  - split; [destruct s, l; reflexivity|].
    intros k Hk. destruct l; simpl in Hk |- *; destruct s; simpl in *;
      [exact Hk|eapply removal_effect_shrinks; exact Hk|exact Hk].
  - intros ->. simpl. destruct s. apply removal_effect_not_live.
Qed.

Lemma register_generational_inv r s s' :
  young_inv s -> caml_register_generational_global_root r s = Some s' ->
  young_inv s'.
Proof.
  intros Hi. unfold caml_register_generational_global_root.
  destruct (classify_gc_root s (mem s r)) eqn:Hc.
  - intros H. apply insert_young_eq in H as [Hm Hy]. intros k Hk.
    unfold registered in Hk. rewrite Hy in Hk. rewrite Hm.
    destruct (decide (k = r)) as [->|Hne].
    + exact (classify_young_block _ _ Hc).
    + rewrite lookup_insert_ne in Hk by congruence. by apply Hi.
  - intros H. eapply young_shrinks_inv; [exact Hi|].
    apply (insert_other_shrinks Old_roots r); [discriminate|exact H].
  - intros [= <-]. exact Hi.
Qed.

Lemma remove_generational_shrinks r s s' :
  caml_remove_generational_global_root r s = Some s' ->
  young_shrinks s s' /\
  (classify_gc_root s (mem s r) ≠ UNTRACKED ->
   ~ registered (caml_global_roots_young s') r).
Proof.
  unfold caml_remove_generational_global_root.
  destruct (classify_gc_root s (mem s r)) eqn:Hc.
  - intros H. apply delete_shrinks in H as [H1 H2]. split; [exact H1|].
    intros _. by apply H2.
  - destruct (caml_delete_global_root Old_roots r s) as [s1|] eqn:E1;
      simpl; [|discriminate].
    intros H. apply delete_shrinks in E1 as [E1 _].
    apply delete_shrinks in H as [H1 H2]. split.
    + eapply young_shrinks_trans; eassumption.
    + intros _. by apply H2.
  - intros [= <-]. split; [apply young_shrinks_refl|]. intros []; reflexivity.
Qed.

Lemma store_inv r v s s1 :
  young_inv s -> mem s1 = mem s ->
  (forall k, k ≠ r -> registered (caml_global_roots_young s1) k ->
             registered (caml_global_roots_young s) k) ->
  (registered (caml_global_roots_young s1) r -> Is_block v = true) ->
  young_inv (store r v s1).
Proof.
  intros Hi Hm Hk Hr k. destruct s1 as [me g y o lk it lo hi gl dg tr].
  simpl in *. intros Hy. destruct (Z.eqb_spec k r) as [->|Hne]; [by apply Hr|].
  subst me. apply Hi, Hk; assumption.
Qed.

Lemma modify_generational_inv r v s s' :
  young_inv s -> caml_modify_generational_global_root r v s = Some s' ->
  young_inv s'.
Proof.
  intros Hi. unfold caml_modify_generational_global_root.
  destruct (classify_gc_root s v) eqn:Hv.
  - (* the new value is young *)
    destruct (if decide (classify_gc_root s (mem s r) = OLD)
              then caml_delete_global_root Old_roots r s else Some s)
      as [sa|] eqn:Ea; simpl; [|discriminate].
    assert (Ha : young_shrinks s sa).
    { destruct (decide _); [|injection Ea as <-; apply young_shrinks_refl].
      by apply delete_shrinks in Ea as [Ea _]. }
    destruct (if decide (classify_gc_root s (mem s r) ≠ YOUNG)
              then caml_insert_global_root Young_roots r sa else Some sa)
      as [s1|] eqn:E1; simpl; [|discriminate].
    intros [= <-]. destruct Ha as [Ham Hak].
    destruct (decide (classify_gc_root s (mem s r) ≠ YOUNG)).
    + apply insert_young_eq in E1 as [Hm1 Hy1].
      apply (store_inv r v s); [exact Hi|congruence| |].
      * intros k Hne Hk. apply Hak. unfold registered in *.
        rewrite Hy1, lookup_insert_ne in Hk by congruence. exact Hk.
      * intros _. exact (classify_young_block _ _ Hv).
    + injection E1 as <-. apply (store_inv r v s); [exact Hi|exact Ham|auto|].
      intros _. exact (classify_young_block _ _ Hv).
  - (* the new value is old *)
    destruct (if decide (classify_gc_root s (mem s r) = UNTRACKED)
              then caml_insert_global_root Old_roots r s else Some s)
      as [s1|] eqn:E1; simpl; [|discriminate].
    intros [= <-].
    assert (Hs : young_shrinks s s1).
    { destruct (decide _); [|injection E1 as <-; apply young_shrinks_refl].
      apply (insert_other_shrinks Old_roots r); [discriminate|exact E1]. }
    destruct Hs as [Hm Hk]. apply (store_inv r v s); [exact Hi|exact Hm|auto|].
    intros _. exact (classify_old_block _ _ Hv).
  - (* the new value is not a heap reference *)
    destruct (caml_remove_generational_global_root r s) as [s1|] eqn:E1;
      simpl; [|discriminate].
    intros [= <-]. apply remove_generational_shrinks in E1 as [[Hm Hk] Hr].
    apply (store_inv r v s); [exact Hi|exact Hm|auto|].
    intros Hreg. exfalso.
    destruct (classify_gc_root s (mem s r)) eqn:Hc.
    + by apply (Hr ltac:(discriminate)).
    + by apply (Hr ltac:(discriminate)).
    + apply Hk, Hi in Hreg. unfold classify_gc_root in Hc.
      rewrite Hreg in Hc. simpl in Hc. destruct (Is_young _ _ _); discriminate.
Qed.

Lemma young_inv_same s s' :
  mem s' = mem s -> caml_global_roots_young s' = caml_global_roots_young s ->
  young_inv s -> young_inv s'.
Proof. intros Hm Hy Hi r. rewrite Hm, Hy. apply Hi. Qed.

Ltac young_frame :=
  match goal with
  | Hi : young_inv ?s |- young_inv _ =>
    apply (young_inv_same s); [destruct s; reflexivity|destruct s; reflexivity|exact Hi]
  end.

Lemma exec_action_inv a s s' :
  action_writes_blocks a -> young_inv s -> exec_action a s = Some s' ->
  young_inv s'.
Proof.
  intros Ha Hi. destruct a; simpl in *.
  - intros [= <-]. apply (store_inv a v s); [exact Hi|reflexivity|auto|auto].
  - intros H. eapply young_shrinks_inv; [exact Hi|].
    apply (insert_other_shrinks Global_roots r); [discriminate|exact H].
  - intros H. apply delete_shrinks in H as [H _]. by eapply young_shrinks_inv.
  - apply register_generational_inv, Hi.
  - intros H. apply remove_generational_shrinks in H as [H _].
    by eapply young_shrinks_inv.
  - apply modify_generational_inv, Hi.
Qed.

Lemma exec_actions_inv l s s' :
  Forall action_writes_blocks l -> young_inv s -> exec_actions l s = Some s' ->
  young_inv s'.
Proof.
  revert s. induction l as [|a l IH]; intros s Hl Hi; simpl.
  - intros [= <-]. exact Hi.
  - apply Forall_cons in Hl as [Ha Hl].
    destruct (exec_action a s) as [s1|] eqn:E; simpl; [|discriminate].
    apply IH; [exact Hl|]. by apply (exec_action_inv a s s1).
Qed.

Lemma call_action_inv f r s s' :
  scan_writes_blocks f -> young_inv s -> call_action f r s = Some s' ->
  young_inv s'.
Proof.
  intros Hf Hi. unfold call_action. apply exec_actions_inv; [apply Hf|].
  young_frame.
Qed.

Lemma iterate_keys_inv f l ks s s' :
  scan_writes_blocks f -> young_inv s -> iterate_keys f l ks s = Some s' ->
  young_inv s'.
Proof.
  intros Hf. revert s. induction ks as [|k ks IH]; intros s Hi; simpl.
  - intros [= <-]. exact Hi.
  - destruct (match get_list l s !! k with
              | Some d => if Z.eqb d ROOT_DELETED
                          then Some (set_list l (skiplist_remove k (get_list l s)) s)
                          else call_action f k s
              | None => Some s end) as [s1|] eqn:E; simpl; [|discriminate].
    apply IH. destruct (get_list l s !! k) as [d|].
    + destruct (Z.eqb d ROOT_DELETED).
      * injection E as <-. intros r Hr. destruct s, l; simpl in *;
          [by apply Hi| |by apply Hi].
        unfold registered, skiplist_remove in Hr.
        destruct (decide (r = k)) as [->|Hne];
          [by rewrite lookup_delete_eq in Hr|].
        rewrite lookup_delete_ne in Hr by congruence. by apply Hi.
      * by apply (call_action_inv f k s s1).
    + injection E as <-. exact Hi.
Qed.

Lemma scan_slots_inv f slots s s' :
  scan_writes_blocks f -> young_inv s -> scan_slots f slots s = Some s' ->
  young_inv s'.
Proof.
  intros Hf. revert s. induction slots as [|a slots IH]; intros s Hi; simpl.
  - intros [= <-]. exact Hi.
  - destruct (call_action f a s) as [s1|] eqn:E; simpl; [|discriminate].
    apply IH. by apply (call_action_inv f a s s1).
Qed.

(** Split an [option] bind in hypothesis [H]. *)
Ltac split_bind H :=
  match type of H with
  | mbind _ ?x = Some _ =>
    let E := fresh "E" in
    destruct x eqn:E; simpl in H; [|discriminate H]
  end.

Lemma lock_blocking_inv s s' :
  young_inv s -> lock_blocking s = Some s' -> young_inv s'.
Proof.
  unfold lock_blocking. destruct (roots_mutex_locked s); [discriminate|].
  intros Hi [= <-]. young_frame.
Qed.

Lemma scan_native_globals_inv f s s' :
  scan_writes_blocks f -> young_inv s -> scan_native_globals f s = Some s' ->
  young_inv s'.
Proof.
  intros Hf Hi H. unfold scan_native_globals in H.
  split_bind H. apply lock_blocking_inv in E; [|exact Hi].
  split_bind H. eapply scan_slots_inv in E0; [|exact Hf|young_frame].
  by eapply scan_slots_inv in H.
Qed.

Lemma scan_global_roots_inv f s s' :
  scan_writes_blocks f -> young_inv s -> caml_scan_global_roots f s = Some s' ->
  young_inv s'.
Proof.
  intros Hf Hi H. unfold caml_scan_global_roots, caml_iterate_global_roots in H.
  split_bind H. apply lock_blocking_inv in E; [|exact Hi].
  split_bind H. eapply iterate_keys_inv in E0; [|exact Hf|young_frame].
  split_bind H. eapply iterate_keys_inv in E1; [|exact Hf|exact E0].
  split_bind H. eapply iterate_keys_inv in E2; [|exact Hf|exact E1].
  eapply scan_native_globals_inv in H; [exact H|exact Hf|young_frame].
Qed.

Lemma scan_global_young_roots_inv f s s' :
  caml_scan_global_young_roots f s = Some s' -> young_inv s'.
Proof.
  intros H. unfold caml_scan_global_young_roots in H.
  split_bind H. split_bind H. split_bind H. injection H as <-.
  intros r Hr. destruct s2; simpl in Hr. unfold registered in Hr.
  by rewrite lookup_empty in Hr.
Qed.

Lemma register_dyn_globals_inv gs s s' :
  young_inv s -> caml_register_dyn_globals gs s = Some s' -> young_inv s'.
Proof.
  intros Hi H. unfold caml_register_dyn_globals in H.
  split_bind H. apply lock_blocking_inv in E; [|exact Hi].
  injection H as <-. young_frame.
Qed.

Lemma run_call_inv c s s' :
  call_writes_blocks c -> young_inv s -> run_call c s = Some s' -> young_inv s'.
Proof.
  intros Hc Hi. destruct c; simpl in *.
  - intros H. eapply young_shrinks_inv; [exact Hi|].
    apply (insert_other_shrinks Global_roots r); [discriminate|exact H].
  - intros H. apply delete_shrinks in H as [H _]. by eapply young_shrinks_inv.
  - apply register_generational_inv, Hi.
  - intros H. apply remove_generational_shrinks in H as [H _].
    by eapply young_shrinks_inv.
  - apply modify_generational_inv, Hi.
  - apply register_dyn_globals_inv, Hi.
  - apply scan_global_roots_inv; assumption.
  - apply scan_global_young_roots_inv.
Qed.

Lemma reachable_run_calls cs s s' :
  reachable s -> Forall call_writes_blocks cs -> run_calls cs s = Some s' ->
  reachable s'.
Proof.
  revert s. induction cs as [|c cs IH]; intros s Hr Hcs; simpl.
  - intros [= <-]. exact Hr.
  - apply Forall_cons in Hcs as [Hc Hcs].
    destruct (run_call c s) as [s1|] eqn:E; simpl; [|discriminate].
    apply IH; [|exact Hcs]. eapply reachable_step; eassumption.
Qed.

(** C1 (counterexample). From the initial state [s_test], register root [8]
    (holding the young pointer [4104]) and set it to [196608], a pointer
    to the old generation: with the mutex free, root [8] is live in the
    young list while its value is not in the young generation. *)
Lemma young_list_holds_old_pointer :
  exists s,
    run_calls [Call_register_generational 8;
               Call_modify_generational 8 196608] s_test = Some s /\
    reachable s /\
    roots_mutex_locked s = false /\
    registered (caml_global_roots_young s) 8 /\
    Is_young (caml_minor_heaps_start s) (caml_minor_heaps_end s) (mem s 8) = false /\
    classify_gc_root s (mem s 8) = OLD.
Proof.
  destruct (run_calls [Call_register_generational 8;
                       Call_modify_generational 8 196608] s_test) as [s|] eqn:E;
    [|vm_compute in E; discriminate].
  exists s. split; [reflexivity|]. split.
  - apply (reachable_run_calls [Call_register_generational 8; Call_modify_generational 8 196608] s_test); [apply reachable_init|repeat constructor; exact I|exact E].
  - vm_compute in E. injection E as <-. vm_compute. repeat split.
Qed.

(** C1 (as the code does it). In every state reached by completed calls
    (the mutex is then free), though not at the points inside a call
    where the mutex is already released, every root live in the young
    list holds a heap reference, into the young or, after a modification, the old
    generation; scanning actions are assumed to relocate roots only to
    heap references. *)
Theorem young_list_holds_heap_references (s : state) (r : Z) :
  reachable s ->
  registered (caml_global_roots_young s) r ->
  Is_block (mem s r) = true.
Proof.
  intros Hs. revert r. change (young_inv s).
  induction Hs as [m lo hi gl|s c s' Hs IH Hc Hrun].
  - intros r Hr. unfold registered in Hr. simpl in Hr.
    by rewrite lookup_empty in Hr.
  - exact (run_call_inv c s s' Hc IH Hrun).
Qed.

Lemma young_list_holds_heap_references_witness :
  exists s,
    run_calls [Call_register_generational 8;
               Call_modify_generational 8 196608] s_test = Some s /\
    reachable s /\
    registered (caml_global_roots_young s) 8 /\
    Is_block (mem s 8) = true.
Proof.
  destruct (run_calls [Call_register_generational 8;
                       Call_modify_generational 8 196608] s_test) as [s|] eqn:E;
    [|vm_compute in E; discriminate].
  assert (Hr : reachable s)
    by (apply (reachable_run_calls [Call_register_generational 8; Call_modify_generational 8 196608] s_test); [apply reachable_init|repeat constructor; exact I|exact E]).
  assert (Hreg : registered (caml_global_roots_young s) 8)
    by (vm_compute in E; injection E as <-; reflexivity).
  exists s. split; [reflexivity|]. split; [exact Hr|]. split; [exact Hreg|].
  exact (young_list_holds_heap_references s 8 Hr Hreg).
Defined.

(** The invariant of C1 holds between calls, not at every point where
    the mutex is free: when [caml_modify_generational_global_root r v]
    moves an untracked root to a young value, [caml_insert_global_root]
    releases the mutex with [r] live in the young list before
    [*r = newval] runs, so in that window [r] holds an integer. *)
Theorem modify_young_unlocks_before_store (s : state) (r v : Z) :
  roots_mutex_locked s = false ->
  classify_gc_root s v = YOUNG ->
  classify_gc_root s (mem s r) = UNTRACKED ->
  exists s1,
    caml_insert_global_root Young_roots r s = Some s1 /\
    caml_modify_generational_global_root r v s = Some (store r v s1) /\
    roots_mutex_locked s1 = false /\
    registered (caml_global_roots_young s1) r /\
    Is_block (mem s1 r) = false.
Proof.
  intros Hl Hv Hc.
  assert (Hb : Is_block (mem s r) = false)
    by (unfold classify_gc_root in Hc; destruct (Is_block (mem s r)); [|reflexivity];
        destruct (Is_young _ _ _); discriminate).
  unfold caml_modify_generational_global_root. rewrite Hv, Hc. simpl.
  unfold caml_insert_global_root, lock_blocking. rewrite Hl. simpl.
  eexists. split; [reflexivity|]. split; [reflexivity|].
  destruct s as [me g y o lk it lo hi gl dg tr]. simpl in *.
  split; [reflexivity|]. split; [|exact Hb].
  unfold registered, skiplist_insert. apply lookup_insert_eq.
Qed.

Lemma modify_young_unlocks_before_store_witness :
  exists s1,
    caml_insert_global_root Young_roots 40 s_test = Some s1 /\
    caml_modify_generational_global_root 40 4104 s_test = Some (store 40 4104 s1) /\
    roots_mutex_locked s1 = false /\
    registered (caml_global_roots_young s1) 40 /\
    Is_block (mem s1 40) = false.
Proof. apply modify_young_unlocks_before_store; reflexivity. Defined.

(** ** Further properties of globroots.c *)

(** *** The mutex and the iteration counter *)

Definition same_ctl (s s' : state) : Prop :=
  roots_mutex_locked s' = roots_mutex_locked s /\
  iterating_roots s' = iterating_roots s.

Lemma same_ctl_refl s : same_ctl s s.
Proof. split; reflexivity. Qed.

Lemma same_ctl_trans s1 s2 s3 : same_ctl s1 s2 -> same_ctl s2 s3 -> same_ctl s1 s3.
Proof. intros [H1 H1'] [H2 H2']. split; congruence. Qed.


Lemma insert_global_root_ctl l r s s' :
  caml_insert_global_root l r s = Some s' -> same_ctl s s'.
Proof.
  unfold caml_insert_global_root, lock_blocking.
  destruct (roots_mutex_locked s) eqn:Hl; [discriminate|]. simpl. intros [= <-].
  destruct s, l; split; simpl in *; congruence.
Qed.

Lemma delete_global_root_ctl l r s s' :
  caml_delete_global_root l r s = Some s' -> same_ctl s s'.
Proof.
  unfold caml_delete_global_root.
  destruct (Nat.ltb 0 (iterating_roots s)).
  - destruct (get_list l s !! r); intros [= <-]; destruct s, l; split; reflexivity.
  - unfold lock_blocking. destruct (roots_mutex_locked s) eqn:Hl; [discriminate|].
    simpl. intros [= <-]. destruct s, l; split; simpl in *; congruence.
Qed.

Lemma store_ctl r v s : same_ctl s (store r v s).
Proof. destruct s; split; reflexivity. Qed.

Lemma remove_generational_ctl r s s' :
  caml_remove_generational_global_root r s = Some s' -> same_ctl s s'.
Proof.
  unfold caml_remove_generational_global_root.
  destruct (classify_gc_root s (mem s r)).
  - apply delete_global_root_ctl.
  - destruct (caml_delete_global_root Old_roots r s) as [s1|] eqn:E;
      simpl; [|discriminate].
    intros H. eapply same_ctl_trans; [eapply delete_global_root_ctl; exact E|].
    eapply delete_global_root_ctl; exact H.
  - intros [= <-]. apply same_ctl_refl.
Qed.

Lemma modify_generational_ctl r v s s' :
  caml_modify_generational_global_root r v s = Some s' -> same_ctl s s'.
Proof.
  unfold caml_modify_generational_global_root.
  destruct (classify_gc_root s v).
  - destruct (if decide (classify_gc_root s (mem s r) = OLD)
              then caml_delete_global_root Old_roots r s else Some s)
      as [sa|] eqn:Ea; simpl; [|discriminate].
    assert (Ha : same_ctl s sa).
    { destruct (decide _); [by eapply delete_global_root_ctl|].
      injection Ea as <-. apply same_ctl_refl. }
    destruct (if decide (classify_gc_root s (mem s r) ≠ YOUNG)
              then caml_insert_global_root Young_roots r sa else Some sa)
      as [s1|] eqn:E1; simpl; [|discriminate].
    intros [= <-]. eapply same_ctl_trans; [exact Ha|].
    eapply same_ctl_trans; [|apply store_ctl].
    destruct (decide (classify_gc_root s (mem s r) ≠ YOUNG));
      [by eapply insert_global_root_ctl|injection E1 as <-; apply same_ctl_refl].
  - destruct (if decide (classify_gc_root s (mem s r) = UNTRACKED)
              then caml_insert_global_root Old_roots r s else Some s)
      as [s1|] eqn:E1; simpl; [|discriminate].
    intros [= <-]. eapply same_ctl_trans; [|apply store_ctl].
    destruct (decide _); [by eapply insert_global_root_ctl|].
    injection E1 as <-. apply same_ctl_refl.
  - destruct (caml_remove_generational_global_root r s) as [s1|] eqn:E1;
      simpl; [|discriminate].
    intros [= <-]. eapply same_ctl_trans; [|apply store_ctl].
    by eapply remove_generational_ctl.
Qed.

Lemma exec_action_ctl a s s' : exec_action a s = Some s' -> same_ctl s s'.
Proof.
  destruct a; simpl.
  - intros [= <-]. apply store_ctl.
  - apply insert_global_root_ctl.
  - apply delete_global_root_ctl.
  - unfold caml_register_generational_global_root.
    destruct (classify_gc_root s (mem s r));
      [apply insert_global_root_ctl|apply insert_global_root_ctl|].
    intros [= <-]. apply same_ctl_refl.
  - apply remove_generational_ctl.
  - apply modify_generational_ctl.
Qed.

Lemma exec_actions_ctl l s s' : exec_actions l s = Some s' -> same_ctl s s'.
Proof.
  revert s. induction l as [|a l IH]; intros s; simpl.
  - intros [= <-]. apply same_ctl_refl.
  - destruct (exec_action a s) as [s1|] eqn:E; simpl; [|discriminate].
    intros H. eapply same_ctl_trans; [eapply exec_action_ctl; exact E|]. by apply IH.
Qed.

Lemma call_action_ctl f r s s' : call_action f r s = Some s' -> same_ctl s s'.
Proof.
  unfold call_action. intros H. apply exec_actions_ctl in H.
  destruct s; exact H.
Qed.

Lemma iterate_keys_ctl f l ks s s' :
  iterate_keys f l ks s = Some s' -> same_ctl s s'.
Proof.
  revert s. induction ks as [|k ks IH]; intros s; simpl.
  - intros [= <-]. apply same_ctl_refl.
  - intros H. split_bind H. eapply same_ctl_trans; [|apply IH; exact H].
    destruct (get_list l s !! k) as [d|]; [|injection E as <-; apply same_ctl_refl].
    destruct (Z.eqb d ROOT_DELETED);
      [injection E as <-; destruct s, l; split; reflexivity|].
    by eapply call_action_ctl.
Qed.

Lemma scan_slots_ctl f slots s s' : scan_slots f slots s = Some s' -> same_ctl s s'.
Proof.
  revert s. induction slots as [|a slots IH]; intros s; simpl.
  - intros [= <-]. apply same_ctl_refl.
  - intros H. split_bind H. eapply same_ctl_trans; [eapply call_action_ctl; exact E|].
    by apply IH.
Qed.

Lemma scan_native_globals_ctl f s s' :
  scan_native_globals f s = Some s' -> same_ctl s s'.
Proof.
  intros H. unfold scan_native_globals, lock_blocking in H.
  destruct (roots_mutex_locked s) eqn:Hl; [discriminate|]. simpl in H.
  split_bind H. apply scan_slots_ctl in E. apply scan_slots_ctl in H.
  eapply same_ctl_trans; [|eapply same_ctl_trans; [exact E|exact H]].
  destruct s; split; simpl in *; congruence.
Qed.

(** A scan that completes leaves the roots mutex free and the iteration
    counter as it found it, whatever its scanning action does. *)
Theorem scan_global_roots_restores f s s' :
  caml_scan_global_roots f s = Some s' ->
  roots_mutex_locked s' = false /\ iterating_roots s' = iterating_roots s.
Proof.
  intros H. unfold caml_scan_global_roots, caml_iterate_global_roots, lock_blocking in H.
  destruct (roots_mutex_locked s) eqn:Hl; [discriminate|]. simpl in H.
  split_bind H. apply iterate_keys_ctl in E as [E E'].
  split_bind H. apply iterate_keys_ctl in E0 as [E0 E0'].
  split_bind H. apply iterate_keys_ctl in E1 as [E1 E1'].
  apply scan_native_globals_ctl in H as [H H'].
  destruct s, s0, s1, s2, s'; simpl in *. split; [congruence|]. subst. lia.
Qed.

Lemma scan_global_roots_restores_witness :
  exists s', caml_scan_global_roots no_action s_test = Some s' /\
    roots_mutex_locked s' = false /\ iterating_roots s' = iterating_roots s_test.
Proof.
  destruct (caml_scan_global_roots no_action s_test) as [s'|] eqn:E;
    [|vm_compute in E; discriminate].
  exists s'. split; [reflexivity|]. exact (scan_global_roots_restores _ _ _ E).
Defined.

Theorem scan_global_young_roots_restores f s s' :
  caml_scan_global_young_roots f s = Some s' ->
  roots_mutex_locked s' = false /\ iterating_roots s' = iterating_roots s.
Proof.
  intros H.
  unfold caml_scan_global_young_roots, caml_iterate_global_roots, lock_blocking in H.
  destruct (roots_mutex_locked s) eqn:Hl; [discriminate|]. simpl in H.
  split_bind H. apply iterate_keys_ctl in E as [E E'].
  split_bind H. apply iterate_keys_ctl in E0 as [E0 E0'].
  injection H as <-. destruct s, s0, s1; simpl in *. split; [reflexivity|]. subst. lia.
Qed.

Lemma scan_global_young_roots_restores_witness :
  exists s', caml_scan_global_young_roots no_action s_test = Some s' /\
    roots_mutex_locked s' = false /\ iterating_roots s' = iterating_roots s_test.
Proof.
  destruct (caml_scan_global_young_roots no_action s_test) as [s'|] eqn:E;
    [|vm_compute in E; discriminate].
  exists s'. split; [reflexivity|]. exact (scan_global_young_roots_restores _ _ _ E).
Defined.

Lemma reachable_any_run_calls cs s s' :
  reachable_any s -> run_calls cs s = Some s' -> reachable_any s'.
Proof.
  revert s. induction cs as [|c cs IH]; intros s Hr; simpl.
  - intros [= <-]. exact Hr.
  - destruct (run_call c s) as [s1|] eqn:E; simpl; [|discriminate].
    apply IH. eapply reachable_any_step; eassumption.
Qed.

(** A scanning action that overwrites every root it visits with the
    integer [3]. *)
Definition write_int : scanning_action := fun _ r => [Act_write r 3].

(** Between completed calls the roots mutex is free and no iteration is
    in progress, whatever the scanning actions did. *)
Theorem reachable_mutex_free (s : state) :
  reachable_any s -> roots_mutex_locked s = false /\ iterating_roots s = 0%nat.
Proof.
  induction 1 as [m lo hi gl|s c s' Hs [IHl IHi] Hrun]; [split; reflexivity|].
  destruct c; simpl in Hrun;
    try (apply insert_global_root_ctl in Hrun as [H1 H2]; split; congruence);
    try (apply delete_global_root_ctl in Hrun as [H1 H2]; split; congruence).
  - unfold caml_register_generational_global_root in Hrun.
    destruct (classify_gc_root s (mem s r));
      try (apply insert_global_root_ctl in Hrun as [H1 H2]; split; congruence).
    injection Hrun as <-. split; assumption.
  - apply remove_generational_ctl in Hrun as [H1 H2]; split; congruence.
  - apply modify_generational_ctl in Hrun as [H1 H2]; split; congruence.
  - unfold caml_register_dyn_globals, lock_blocking in Hrun. rewrite IHl in Hrun.
    simpl in Hrun. injection Hrun as <-. destruct s; simpl in *; split; congruence.
  - apply scan_global_roots_restores in Hrun as [H1 H2]; split; congruence.
  - apply scan_global_young_roots_restores in Hrun as [H1 H2]; split; congruence.
Qed.

Lemma reachable_mutex_free_witness :
  exists s,
    run_calls [Call_register_generational 8; Call_scan_global_roots write_int;
               Call_scan_global_young_roots write_int] s_test = Some s /\
    mem s 8 = 3 /\
    reachable_any s /\ roots_mutex_locked s = false /\ iterating_roots s = 0%nat.
Proof.
  destruct (run_calls [Call_register_generational 8; Call_scan_global_roots write_int;
                       Call_scan_global_young_roots write_int] s_test) as [s|] eqn:E;
    [|vm_compute in E; discriminate].
  assert (Hr : reachable_any s)
    by (apply (reachable_any_run_calls
                [Call_register_generational 8; Call_scan_global_roots write_int;
                 Call_scan_global_young_roots write_int] s_test);
        [apply reachable_any_init|exact E]).
  exists s. split; [reflexivity|]. split; [vm_compute in E; injection E as <-; reflexivity|].
  split; [exact Hr|]. exact (reachable_mutex_free s Hr).
Defined.

(** *** Calls made while the thread holds the mutex for a scan *)

Lemma insert_locked l r s :
  roots_mutex_locked s = true -> caml_insert_global_root l r s = None.
Proof. intros H. unfold caml_insert_global_root, lock_blocking. by rewrite H. Qed.

Lemma delete_iterating_some l r s :
  (0 < iterating_roots s)%nat -> is_Some (caml_delete_global_root l r s).
Proof.
  intros H. unfold caml_delete_global_root.
  apply Nat.ltb_lt in H. rewrite H. destruct (get_list l s !! r); eauto.
Qed.

(** Inside a scanning action (the thread holds the mutex and iterates),
    the removal functions complete (they tombstone), while every call
    that needs to insert into a list blocks forever on the mutex:
    [caml_register_global_root] always, [caml_register_generational_global_root]
    unless [*r] is not a heap reference, and
    [caml_modify_generational_global_root] exactly when it has to insert
    (new value young and old one not young, or new value old and old one
    not a heap reference). *)
Theorem calls_while_scanning (s : state) (r v : Z) :
  roots_mutex_locked s = true ->
  (0 < iterating_roots s)%nat ->
  caml_register_global_root r s = None /\
  is_Some (caml_remove_global_root r s) /\
  is_Some (caml_remove_generational_global_root r s) /\
  (caml_register_generational_global_root r s = None <->
   classify_gc_root s (mem s r) ≠ UNTRACKED) /\
  (caml_modify_generational_global_root r v s = None <->
   (classify_gc_root s v = YOUNG /\ classify_gc_root s (mem s r) ≠ YOUNG) \/
   (classify_gc_root s v = OLD /\ classify_gc_root s (mem s r) = UNTRACKED)).
Proof.
  intros Hl Hit. split; [by apply insert_locked|].
  split; [by apply delete_iterating_some|].
  assert (Hrem : is_Some (caml_remove_generational_global_root r s)).
  { unfold caml_remove_generational_global_root.
    destruct (classify_gc_root s (mem s r)); [by apply delete_iterating_some| |eauto].
    destruct (delete_iterating_some Old_roots r s Hit) as [s1 E1]. rewrite E1. simpl.
    apply delete_iterating_some. apply delete_global_root_ctl in E1 as [_ ->].
    exact Hit. }
  split; [exact Hrem|]. split.
  - unfold caml_register_generational_global_root.
    destruct (classify_gc_root s (mem s r)); rewrite ?insert_locked by assumption;
      split; intros; try reflexivity; congruence.
  - unfold caml_modify_generational_global_root.
    destruct (classify_gc_root s v) eqn:Hv.
    + destruct (classify_gc_root s (mem s r)) eqn:Hc; simpl.
      * split; [discriminate|]. intros [[_ H]|[H _]]; congruence.
      * destruct (delete_iterating_some Old_roots r s Hit) as [s1 E1]. rewrite E1.
        simpl. apply delete_global_root_ctl in E1 as [E1 _].
        rewrite insert_locked by congruence. simpl. split; [|reflexivity].
        intros _. left. split; [reflexivity|discriminate].
      * rewrite insert_locked by assumption. simpl. split; [|reflexivity].
        intros _. left. split; [reflexivity|discriminate].
    + destruct (decide (classify_gc_root s (mem s r) = UNTRACKED)) as [Hc|Hc].
      * rewrite insert_locked by assumption. simpl. split; [|reflexivity].
        intros _. right. split; [reflexivity|exact Hc].
      * simpl. split; [discriminate|]. intros [[H _]|[_ H]]; congruence.
    + destruct Hrem as [s1 E1]. rewrite E1. simpl. split; [discriminate|].
      intros [[H _]|[H _]]; discriminate.
Qed.

(** A state of the scan: root [8] registered, the mutex held, one level
    of iteration. *)
Definition s_scanning : state :=
  set_iterating 1 (set_mutex true
    (set_list Young_roots {[8 := ROOT_PRESENT]} s_test)).

Lemma calls_while_scanning_witness :
  roots_mutex_locked s_scanning = true /\ (0 < iterating_roots s_scanning)%nat /\
  caml_register_global_root 16 s_scanning = None /\
  is_Some (caml_remove_global_root 16 s_scanning) /\
  is_Some (caml_remove_generational_global_root 16 s_scanning) /\
  (caml_register_generational_global_root 16 s_scanning = None <->
   classify_gc_root s_scanning (mem s_scanning 16) ≠ UNTRACKED) /\
  (caml_modify_generational_global_root 16 4104 s_scanning = None <->
   (classify_gc_root s_scanning 4104 = YOUNG /\
    classify_gc_root s_scanning (mem s_scanning 16) ≠ YOUNG) \/
   (classify_gc_root s_scanning 4104 = OLD /\
    classify_gc_root s_scanning (mem s_scanning 16) = UNTRACKED)).
Proof.
  assert (H1 : roots_mutex_locked s_scanning = true) by reflexivity.
  assert (H2 : (0 < iterating_roots s_scanning)%nat) by (simpl; lia).
  split; [exact H1|]. split; [exact H2|].
  exact (calls_while_scanning s_scanning 16 4104 H1 H2).
Defined.

(** *** [caml_modify_generational_global_root] outside scans *)

(** Outside scans, [caml_modify_generational_global_root r v] stores [v]
    into [*r] and moves [r] between the generational lists according to
    the classes of the new and of the old value of [*r]: to the young
    list when the new value is young (out of the old list if it was
    there), into the old list only from an untracked value, out of both
    lists (as [caml_remove_generational_global_root]) when the new value
    is not a heap reference. *)
Theorem modify_generational_effect (s : state) (r v : Z) :
  roots_mutex_locked s = false -> iterating_roots s = 0%nat ->
  exists s',
    caml_modify_generational_global_root r v s = Some s' /\
    mem s' r = v /\ (forall a, a ≠ r -> mem s' a = mem s a) /\
    caml_global_roots s' = caml_global_roots s /\
    let y := caml_global_roots_young s in
    let o := caml_global_roots_old s in
    match classify_gc_root s v, classify_gc_root s (mem s r) with
    | YOUNG, YOUNG => caml_global_roots_young s' = y /\ caml_global_roots_old s' = o
    | YOUNG, OLD =>
      caml_global_roots_young s' = <[r := ROOT_PRESENT]> y /\
      caml_global_roots_old s' = delete r o
    | YOUNG, UNTRACKED =>
      caml_global_roots_young s' = <[r := ROOT_PRESENT]> y /\
      caml_global_roots_old s' = o
    | OLD, UNTRACKED =>
      caml_global_roots_young s' = y /\
      caml_global_roots_old s' = <[r := ROOT_PRESENT]> o
    | OLD, _ => caml_global_roots_young s' = y /\ caml_global_roots_old s' = o
    | UNTRACKED, OLD =>
      caml_global_roots_young s' = delete r y /\ caml_global_roots_old s' = delete r o
    | UNTRACKED, YOUNG =>
      caml_global_roots_young s' = delete r y /\ caml_global_roots_old s' = o
    | UNTRACKED, UNTRACKED =>
      caml_global_roots_young s' = y /\ caml_global_roots_old s' = o
    end.
Proof.
  intros Hl Hit.
  assert (Hf : mutex_free_unless_iterating s) by (intros _; exact Hl).
  assert (Hmem : forall s1, mem (store r v s1) r = v /\
            forall a, a ≠ r -> mem (store r v s1) a = mem s1 a).
  { intros s1. destruct s1; simpl. rewrite Z.eqb_refl. split; [reflexivity|].
    intros a Ha. apply Z.eqb_neq in Ha. by rewrite Ha. }
  unfold caml_modify_generational_global_root.
  destruct (classify_gc_root s v) eqn:Hv;
    destruct (classify_gc_root s (mem s r)) eqn:Hc; simpl.
  - eexists; split; [reflexivity|]. destruct (Hmem s) as [H1 H2].
    split; [exact H1|split; [exact H2|]]. destruct s; repeat split.
  - rewrite delete_global_root_eq by exact Hf. simpl.
    rewrite insert_global_root_eq by (destruct s; exact Hl). simpl.
    eexists; split; [reflexivity|]. destruct (Hmem (set_list Young_roots
      (<[r:=ROOT_PRESENT]> (get_list Young_roots (set_list Old_roots
        (removal_effect (iterating_roots s) r (get_list Old_roots s)) s)))
      (set_list Old_roots
        (removal_effect (iterating_roots s) r (get_list Old_roots s)) s)))
      as [H1 H2].
    split; [exact H1|split; [intros a Ha; rewrite H2 by exact Ha; destruct s; reflexivity|]].
    destruct s; simpl in *; subst; repeat split.
  - rewrite insert_global_root_eq by exact Hl. simpl.
    eexists; split; [reflexivity|].
    destruct (Hmem (set_list Young_roots (<[r:=ROOT_PRESENT]> (get_list Young_roots s)) s))
      as [H1 H2].
    split; [exact H1|split; [intros a Ha; rewrite H2 by exact Ha; destruct s; reflexivity|]].
    destruct s; simpl in *; repeat split.
  - eexists; split; [reflexivity|]. destruct (Hmem s) as [H1 H2].
    split; [exact H1|split; [exact H2|]]. destruct s; repeat split.
  - eexists; split; [reflexivity|]. destruct (Hmem s) as [H1 H2].
    split; [exact H1|split; [exact H2|]]. destruct s; repeat split.
  - rewrite insert_global_root_eq by exact Hl. simpl.
    eexists; split; [reflexivity|].
    destruct (Hmem (set_list Old_roots (<[r:=ROOT_PRESENT]> (get_list Old_roots s)) s))
      as [H1 H2].
    split; [exact H1|split; [intros a Ha; rewrite H2 by exact Ha; destruct s; reflexivity|]].
    destruct s; simpl in *; repeat split.
  - rewrite remove_generational_young by assumption. simpl.
    eexists; split; [reflexivity|].
    destruct (Hmem (set_list Young_roots (removal_effect (iterating_roots s) r
      (caml_global_roots_young s)) s)) as [H1 H2].
    split; [exact H1|split; [intros a Ha; rewrite H2 by exact Ha; destruct s; reflexivity|]].
    destruct s; simpl in *; subst; repeat split.
  - rewrite remove_generational_old by assumption. simpl.
    eexists; split; [reflexivity|].
    destruct (Hmem (set_list Young_roots
      (removal_effect (iterating_roots s) r (caml_global_roots_young s))
      (set_list Old_roots
        (removal_effect (iterating_roots s) r (caml_global_roots_old s)) s)))
      as [H1 H2].
    split; [exact H1|split; [intros a Ha; rewrite H2 by exact Ha; destruct s; reflexivity|]].
    destruct s; simpl in *; subst; repeat split.
  - rewrite remove_generational_untracked.
    2: { unfold classify_gc_root in Hc. destruct (Is_block (mem s r)); [|reflexivity].
         simpl in Hc. destruct (Is_young _ _ _); discriminate. }
    simpl. eexists; split; [reflexivity|]. destruct (Hmem s) as [H1 H2].
    split; [exact H1|split; [exact H2|]]. destruct s; repeat split.
Qed.

Lemma modify_generational_effect_witness :
  roots_mutex_locked s_test = false /\ iterating_roots s_test = 0%nat /\
  exists s',
    caml_modify_generational_global_root 16 4104 s_test = Some s' /\
    mem s' 16 = 4104 /\ (forall a, a ≠ 16 -> mem s' a = mem s_test a) /\
    caml_global_roots s' = caml_global_roots s_test /\
    let y := caml_global_roots_young s_test in
    let o := caml_global_roots_old s_test in
    match classify_gc_root s_test 4104, classify_gc_root s_test (mem s_test 16) with
    | YOUNG, YOUNG => caml_global_roots_young s' = y /\ caml_global_roots_old s' = o
    | YOUNG, OLD =>
      caml_global_roots_young s' = <[16 := ROOT_PRESENT]> y /\
      caml_global_roots_old s' = delete 16 o
    | YOUNG, UNTRACKED =>
      caml_global_roots_young s' = <[16 := ROOT_PRESENT]> y /\
      caml_global_roots_old s' = o
    | OLD, UNTRACKED =>
      caml_global_roots_young s' = y /\
      caml_global_roots_old s' = <[16 := ROOT_PRESENT]> o
    | OLD, _ => caml_global_roots_young s' = y /\ caml_global_roots_old s' = o
    | UNTRACKED, OLD =>
      caml_global_roots_young s' = delete 16 y /\ caml_global_roots_old s' = delete 16 o
    | UNTRACKED, YOUNG =>
      caml_global_roots_young s' = delete 16 y /\ caml_global_roots_old s' = o
    | UNTRACKED, UNTRACKED =>
      caml_global_roots_young s' = y /\ caml_global_roots_old s' = o
    end.
Proof.
  split; [reflexivity|]. split; [reflexivity|].
  apply modify_generational_effect; reflexivity.
Defined.

(** *** Mutable roots *)

(** Outside scans, registering a mutable root and removing it again
    gives back the mutable list, provided the root had no entry in it,
    and touches neither memory nor the generational lists. *)
Theorem global_root_round_trip (s : state) (r : Z) :
  roots_mutex_locked s = false -> iterating_roots s = 0%nat ->
  caml_global_roots s !! r = None ->
  (caml_register_global_root r s ≫= caml_remove_global_root r) = Some s.
Proof.
  intros Hl Hit Hr. unfold caml_register_global_root, caml_remove_global_root.
  rewrite insert_global_root_eq by exact Hl. simpl.
  rewrite delete_global_root_eq.
  2: { intros _. destruct s; exact Hl. }
  f_equal. rewrite get_set_list_same, set_list_set_list.
  replace (iterating_roots (set_list Global_roots
             (<[r:=ROOT_PRESENT]> (get_list Global_roots s)) s))
    with 0%nat by (destruct s; simpl in *; congruence).
  unfold removal_effect. simpl Nat.ltb. cbv iota.
  rewrite delete_insert_id by exact Hr. apply set_list_get.
Qed.

Lemma global_root_round_trip_witness :
  (caml_register_global_root 32 s_test ≫= caml_remove_global_root 32) = Some s_test.
Proof. apply global_root_round_trip; reflexivity. Defined.

(** The functions on generational roots never change the list of
    mutable roots. *)
Theorem generational_calls_keep_mutable_list (s s' : state) (r v : Z) :
  (caml_register_generational_global_root r s = Some s' \/
   caml_remove_generational_global_root r s = Some s' \/
   caml_modify_generational_global_root r v s = Some s') ->
  caml_global_roots s' = caml_global_roots s.
Proof.
  assert (Hins : forall l s1 s2, l ≠ Global_roots ->
            caml_insert_global_root l r s1 = Some s2 ->
            caml_global_roots s2 = caml_global_roots s1).
  { intros l s1 s2 Hl. unfold caml_insert_global_root, lock_blocking.
    destruct (roots_mutex_locked s1); [discriminate|]. simpl. intros [= <-].
    destruct s1, l; simpl; congruence. }
  assert (Hdel : forall l s1 s2, l ≠ Global_roots ->
            caml_delete_global_root l r s1 = Some s2 ->
            caml_global_roots s2 = caml_global_roots s1).
  { intros l s1 s2 Hl. unfold caml_delete_global_root.
    destruct (Nat.ltb 0 (iterating_roots s1)).
    - destruct (get_list l s1 !! r); intros [= <-]; destruct s1, l; simpl; congruence.
    - unfold lock_blocking. destruct (roots_mutex_locked s1); [discriminate|].
      simpl. intros [= <-]. destruct s1, l; simpl; congruence. }
  assert (Hrem : forall s1 s2, caml_remove_generational_global_root r s1 = Some s2 ->
            caml_global_roots s2 = caml_global_roots s1).
  { intros s1 s2. unfold caml_remove_generational_global_root.
    destruct (classify_gc_root s1 (mem s1 r)).
    - apply Hdel. discriminate.
    - intros H. split_bind H. apply Hdel in E; [|discriminate].
      apply Hdel in H; [congruence|discriminate].
    - congruence. }
  intros [H|[H|H]].
  - revert H. unfold caml_register_generational_global_root.
    destruct (classify_gc_root s (mem s r)); try (apply Hins; discriminate). congruence.
  - by apply Hrem.
  - revert H. unfold caml_modify_generational_global_root. intros H.
    split_bind H. injection H as <-.
    replace (caml_global_roots (store r v s0)) with (caml_global_roots s0)
      by (destruct s0; reflexivity).
    destruct (classify_gc_root s v).
    + split_bind E. destruct (decide (classify_gc_root s (mem s r) ≠ YOUNG)).
      * apply Hins in E; [|discriminate].
        destruct (decide (classify_gc_root s (mem s r) = OLD));
          [apply Hdel in E0; [congruence|discriminate]|injection E0 as <-; exact E].
      * injection E as <-.
        destruct (decide (classify_gc_root s (mem s r) = OLD));
          [apply Hdel in E0; [congruence|discriminate]|injection E0 as <-; reflexivity].
    + destruct (decide _); [apply Hins in E; [exact E|discriminate]|congruence].
    + by apply Hrem.
Qed.

Lemma generational_calls_keep_mutable_list_witness :
  exists s', caml_register_generational_global_root 8 s_test = Some s' /\
    caml_global_roots s' = caml_global_roots s_test.
Proof.
  destruct (caml_register_generational_global_root 8 s_test) as [s'|] eqn:E;
    [|vm_compute in E; discriminate].
  exists s'. split; [reflexivity|].
  apply (generational_calls_keep_mutable_list s_test s' 8 0). left. exact E.
Defined.

(** *** What the scans visit and purge *)

(** A list with its tombstones removed. *)
Definition drop_tombstones (m : gmap Z Z) : gmap Z Z :=
  filter (fun kv : Z * Z => kv.2 ≠ ROOT_DELETED) m.

(** 1 when [a] has a live entry in [m], else 0. *)
Definition live_bit (m : gmap Z Z) (a : Z) : nat :=
  match m !! a with
  | Some d => if Z.eqb d ROOT_DELETED then 0 else 1
  | None => 0
  end.

Lemma purge_keys_deleted (ks : list Z) (m : gmap Z Z) (a : Z) :
  a ∈ ks -> m !! a = Some ROOT_DELETED -> purge_keys ks m !! a = None.
Proof.
  revert m. induction ks as [|k ks IH]; intros m Hin Ha;
    [by apply not_elem_of_nil in Hin|]. simpl.
  destruct (decide (k = a)) as [->|Hne].
  - rewrite Ha. simpl. apply purge_keys_absent, lookup_delete_eq.
  - apply elem_of_cons in Hin as [->|Hin]; [congruence|].
    destruct (m !! k) as [d|]; [|by apply IH].
    destruct (Z.eqb d ROOT_DELETED); apply IH; try assumption.
    by rewrite lookup_delete_ne.
Qed.

Lemma walk_keys_deleted (ks : list Z) (m : gmap Z Z) (a : Z) :
  m !! a = Some ROOT_DELETED -> count_occ Z.eq_dec (walk_keys ks m) a = 0%nat.
Proof.
  revert m. induction ks as [|k ks IH]; intros m Ha; simpl; [reflexivity|].
  destruct (decide (k = a)) as [->|Hne].
  - rewrite Ha. simpl. apply walk_keys_absent, lookup_delete_eq.
  - destruct (m !! k) as [d|]; [|by apply IH].
    destruct (Z.eqb d ROOT_DELETED).
    + apply IH. by rewrite lookup_delete_ne.
    + simpl. destruct (Z.eq_dec k a); [congruence|by apply IH].
Qed.

Lemma purge_all_keys (m : gmap Z Z) :
  purge_keys (skiplist_keys m) m = drop_tombstones m.
Proof.
  apply map_eq. intros a. unfold drop_tombstones. rewrite map_lookup_filter.
  destruct (m !! a) as [d|] eqn:E; simpl.
  - destruct (Z.eqb_spec d ROOT_DELETED) as [->|Hd].
    + rewrite option_guard_False by (simpl; congruence). simpl.
      apply purge_keys_deleted; [apply skiplist_keys_spec; eauto|exact E].
    + rewrite (purge_keys_live _ _ a d E Hd).
      rewrite option_guard_True by exact Hd. reflexivity.
  - by apply purge_keys_absent.
Qed.

Lemma walk_all_keys (m : gmap Z Z) (a : Z) :
  count_occ Z.eq_dec (walk_keys (skiplist_keys m) m) a = live_bit m a.
Proof.
  unfold live_bit. destruct (m !! a) as [d|] eqn:E.
  - destruct (Z.eqb_spec d ROOT_DELETED) as [->|Hd].
    + by apply walk_keys_deleted.
    + apply (walk_keys_live _ _ a d); try assumption.
      * apply skiplist_keys_NoDup.
      * apply skiplist_keys_spec; eauto.
  - by apply walk_keys_absent.
Qed.

(** [caml_scan_global_roots] with a scanning action that only relocates:
    each of the three lists loses exactly its tombstones, and the
    scanning action is called on an address once per list where it is
    live, plus once per field of a global it is. *)
Theorem scan_global_roots_visits (f : scanning_action) (s : state) :
  roots_mutex_locked s = false -> writes_only f ->
  exists s',
    caml_scan_global_roots f s = Some s' /\
    caml_global_roots s' = drop_tombstones (caml_global_roots s) /\
    caml_global_roots_young s' = drop_tombstones (caml_global_roots_young s) /\
    caml_global_roots_old s' = drop_tombstones (caml_global_roots_old s) /\
    forall a, count_occ Z.eq_dec (trace s') a =
      (count_occ Z.eq_dec (trace s) a + live_bit (caml_global_roots s) a
       + live_bit (caml_global_roots_young s) a + live_bit (caml_global_roots_old s) a
       + count_occ Z.eq_dec (concat (caml_globals s) ++ concat (caml_dyn_globals s)) a)%nat.
Proof.
  intros Hl Hf. destruct s as [me g y o lk it lo hi gl dg tr]. simpl in *. subst lk.
  destruct (scan_all_writes f me g y o it lo hi gl dg tr Hf) as [me' H].
  eexists. split; [exact H|]. simpl. rewrite !purge_all_keys.
  split; [reflexivity|split; [reflexivity|split; [reflexivity|]]].
  intros a. rewrite !count_occ_app_Z, !walk_all_keys. lia.
Qed.

(** A state whose old list holds a tombstone beside a live entry. *)
Definition s_scanned : state :=
  set_list Old_roots {[8 := ROOT_DELETED; 16 := ROOT_PRESENT]} s_test.

Lemma scan_global_roots_visits_witness :
  exists s',
    caml_scan_global_roots no_action s_scanned = Some s' /\
    caml_global_roots s' = drop_tombstones (caml_global_roots s_scanned) /\
    caml_global_roots_young s' = drop_tombstones (caml_global_roots_young s_scanned) /\
    caml_global_roots_old s' = drop_tombstones (caml_global_roots_old s_scanned) /\
    forall a, count_occ Z.eq_dec (trace s') a =
      (count_occ Z.eq_dec (trace s_scanned) a + live_bit (caml_global_roots s_scanned) a
       + live_bit (caml_global_roots_young s_scanned) a
       + live_bit (caml_global_roots_old s_scanned) a
       + count_occ Z.eq_dec (concat (caml_globals s_scanned)
                             ++ concat (caml_dyn_globals s_scanned)) a)%nat.
Proof.
  apply scan_global_roots_visits; [reflexivity|exact no_action_writes_only].
Defined.

Lemma promote_fold_other (ks : list Z) (o : gmap Z Z) (k : Z) :
  k ∉ ks ->
  fold_left (fun o k => skiplist_insert k 0 o) ks o !! k = o !! k.
Proof.
  revert o. induction ks as [|k' ks IH]; intros o Hk; simpl; [reflexivity|].
  apply not_elem_of_cons in Hk as [Hne Hk].
  rewrite IH by exact Hk. unfold skiplist_insert. by rewrite lookup_insert_ne.
Qed.

Lemma promote_young_lookup (y o : gmap Z Z) (a : Z) :
  promote_young (drop_tombstones y) o !! a
  = if Nat.eqb (live_bit y a) 1 then Some ROOT_PRESENT else o !! a.
Proof.
  unfold promote_young, live_bit.
  destruct (decide (is_Some (drop_tombstones y !! a))) as [Hs|Hs].
  - rewrite promote_fold_sets by (by apply skiplist_keys_spec).
    unfold drop_tombstones in Hs. rewrite map_lookup_filter in Hs.
    destruct (y !! a) as [d|]; simpl in Hs; [|by destruct Hs].
    destruct (Z.eqb_spec d ROOT_DELETED) as [->|]; [|reflexivity].
    rewrite option_guard_False in Hs by (simpl; congruence). by destruct Hs.
  - rewrite promote_fold_other by (by rewrite skiplist_keys_spec).
    unfold drop_tombstones in Hs. rewrite map_lookup_filter in Hs.
    destruct (y !! a) as [d|]; simpl in Hs; [|reflexivity].
    destruct (Z.eqb_spec d ROOT_DELETED) as [->|Hd]; [reflexivity|].
    rewrite option_guard_True in Hs by exact Hd. exfalso. apply Hs. eauto.
Qed.

(** [caml_scan_global_young_roots] with a scanning action that only
    relocates: the mutable list loses its tombstones, the young list is
    emptied, every live young root is registered in the old list (the
    other old entries unchanged), and the scanning action is called on an
    address once per live entry in the mutable and young lists; neither
    the old list nor the fields of the globals are scanned. *)
Theorem scan_global_young_roots_visits (f : scanning_action) (s : state) :
  roots_mutex_locked s = false -> writes_only f ->
  exists s',
    caml_scan_global_young_roots f s = Some s' /\
    caml_global_roots s' = drop_tombstones (caml_global_roots s) /\
    caml_global_roots_young s' = ∅ /\
    (forall a, caml_global_roots_old s' !! a =
       if Nat.eqb (live_bit (caml_global_roots_young s) a) 1 then Some ROOT_PRESENT
       else caml_global_roots_old s !! a) /\
    forall a, count_occ Z.eq_dec (trace s') a =
      (count_occ Z.eq_dec (trace s) a + live_bit (caml_global_roots s) a
       + live_bit (caml_global_roots_young s) a)%nat.
Proof.
  intros Hl Hf. destruct s as [me g y o lk it lo hi gl dg tr]. simpl in *. subst lk.
  destruct (scan_young_writes f me g y o it lo hi gl dg tr Hf) as [me' H].
  eexists. split; [exact H|]. simpl. rewrite !purge_all_keys.
  split; [reflexivity|split; [reflexivity|split]].
  - intros a. apply promote_young_lookup.
  - intros a. rewrite !count_occ_app_Z, !walk_all_keys. lia.
Qed.

(** A state whose young list holds a tombstone beside a live entry. *)
Definition s_young_scanned : state :=
  set_list Young_roots {[8 := ROOT_PRESENT; 16 := ROOT_DELETED]} s_test.

Lemma scan_global_young_roots_visits_witness :
  exists s',
    caml_scan_global_young_roots no_action s_young_scanned = Some s' /\
    caml_global_roots s' = drop_tombstones (caml_global_roots s_young_scanned) /\
    caml_global_roots_young s' = ∅ /\
    (forall a, caml_global_roots_old s' !! a =
       if Nat.eqb (live_bit (caml_global_roots_young s_young_scanned) a) 1
       then Some ROOT_PRESENT
       else caml_global_roots_old s_young_scanned !! a) /\
    forall a, count_occ Z.eq_dec (trace s') a =
      (count_occ Z.eq_dec (trace s_young_scanned) a
       + live_bit (caml_global_roots s_young_scanned) a
       + live_bit (caml_global_roots_young s_young_scanned) a)%nat.
Proof.
  apply scan_global_young_roots_visits; [reflexivity|exact no_action_writes_only].
Defined.

(** *** Dynamic globals *)

Lemma fold_cons_rev {A} (l acc : list A) :
  fold_left (fun acc g => g :: acc) l acc = rev l ++ acc.
Proof.
  revert acc. induction l as [|x l IH]; intros acc; simpl; [reflexivity|].
  rewrite IH, <- app_assoc. reflexivity.
Qed.

(** [caml_register_dyn_globals] called twice registers the same list of
    dynamic globals, in the same order, as one call on the concatenation
    of the two arrays (and blocks in both when the mutex is held). *)
Theorem register_dyn_globals_compose (gs1 gs2 : list (list Z)) (s : state) :
  (caml_register_dyn_globals gs1 s ≫= caml_register_dyn_globals gs2)
  = caml_register_dyn_globals (gs1 ++ gs2) s.
Proof.
  destruct s as [me g y o [] it lo hi gl dg tr]; [reflexivity|].
  unfold caml_register_dyn_globals. simpl.
  rewrite !fold_cons_rev, rev_app_distr, <- app_assoc. reflexivity.
Qed.

(** Dynamic globals are pushed on the front of [caml_dyn_globals], so
    [scan_native_globals] visits, after the fields of the static globals,
    those of the most recently registered array first, its globals in
    reverse order, then the older ones; the mutex is free again after
    both calls. *)
Theorem register_then_scan_native_globals (f : scanning_action)
  (gs : list (list Z)) (s : state) :
  roots_mutex_locked s = false -> writes_only f ->
  exists s1 s2,
    caml_register_dyn_globals gs s = Some s1 /\
    scan_native_globals f s1 = Some s2 /\
    roots_mutex_locked s2 = false /\
    trace s2 = trace s ++ concat (caml_globals s) ++ concat (rev gs)
               ++ concat (caml_dyn_globals s).
Proof.
  intros Hl Hf. destruct s as [me g y o lk it lo hi gl dg tr]. simpl in Hl. subst lk.
  unfold caml_register_dyn_globals. simpl. rewrite fold_cons_rev.
  exists (mkState me g y o false it lo hi gl (rev gs ++ dg) tr).
  unfold scan_native_globals. simpl.
  destruct (scan_slots_writes f (concat gl)
              (mkState me g y o false it lo hi gl (rev gs ++ dg) tr) Hf) as [me1 H1].
  rewrite H1. simpl.
  destruct (scan_slots_writes f (concat (rev gs ++ dg))
              (mkState me1 g y o false it lo hi gl (rev gs ++ dg) (tr ++ concat gl)) Hf)
    as [me2 H2].
  rewrite H2. eexists. split; [reflexivity|split; [reflexivity|split; [reflexivity|]]].
  simpl. rewrite concat_app, !app_assoc. reflexivity.
Qed.

Lemma register_then_scan_native_globals_witness :
  exists s1 s2,
    caml_register_dyn_globals [[32]; [40]] s_test = Some s1 /\
    scan_native_globals no_action s1 = Some s2 /\
    roots_mutex_locked s2 = false /\
    trace s2 = trace s_test ++ concat (caml_globals s_test) ++ concat (rev [[32]; [40]])
               ++ concat (caml_dyn_globals s_test).
Proof.
  apply register_then_scan_native_globals;
    [reflexivity|exact no_action_writes_only].
Defined.
